(** * waft.js: a shallow embedding of the attribute scanner, the reference
      registry, the snippet evaluator, the directive engine and the event
      binder of [src/waft.js], with the properties of the specification
      stated and settled against it. *)

From stdpp Require Import gmap strings list fin_maps pretty.

Set Warnings "-register-all".
Open Scope string_scope.
Open Scope list_scope.

(** ** JavaScript values and the host document *)

(** A browser event, as far as the engine reads it: its type, the element
    it is dispatched at and [ev.submitter] ([None] is null or undefined). *)
Record Event := {
  ev_type : string;
  ev_target : nat;
  ev_submitter : option nat
}.

(** The values a snippet can return, throw or pass to [wUpdate].  Elements
    are handles (identity is the number); numbers are the integer-valued
    ones. *)
Inductive Value :=
  | VUndefined
  | VNull
  | VBool (b : bool)
  | VNum (n : Z)
  | VStr (s : string)
  | VElem (id : nat)
  | VEvent (ev : Event)
  | VErr (name : string).

#[global] Instance Event_eq_dec : EqDecision Event.
Proof. solve_decision. Defined.
#[global] Instance Value_eq_dec : EqDecision Value.
Proof. solve_decision. Defined.

(** The two closures [registerEventHandler] hands to [addEventListener]:
    [(ev) => { if (ev.submitter == elm) { this.handleEvent('submit', elm, code, ev) }}]
    and [(ev) => { this.handleEvent(eventName, elm, code, ev) }], each with
    the variables it captured. *)
Inductive Listener :=
  | SubmitListener (elm : nat) (code : string)
  | EventListener (eventName : string) (elm : nat) (code : string).

#[global] Instance Listener_eq_dec : EqDecision Listener.
Proof. solve_decision. Defined.

(** What the engine reads and writes of an element: [elm.attributes],
    [elm.style.display], the expando [elm.mOriginalDisplay] ([None] while
    it is undefined), [elm.value] (a string on a form control, any value on
    another element, where it is a property of the script's own),
    [elm.textContent], [elm.innerHTML], [elm.form] ([None] is null) and
    the listeners added so far, oldest first, each with the event type it
    was added for.  The text and the markup are kept as a write to the
    element itself leaves them; a write below the element changes what
    they read in the host, and its record is not rewritten for that. *)
Record Element := {
  attributes : gmap string string;
  display : string;
  mOriginalDisplay : option string;
  value : Value;
  textContent : string;
  innerHTML : string;
  form : option nat;
  listeners : list (string * Listener)
}.

Definition blankElement : Element :=
  {| attributes := ∅; display := ""; mOriginalDisplay := None;
     value := VUndefined; textContent := ""; innerHTML := ""; form := None;
     listeners := [] |}.

(** The element tree of the document; document order is preorder. *)
Inductive Tree := Node (id : nat) (children : list Tree).

Fixpoint preorder (t : Tree) : list nat :=
  match t with
  | Node id children => id :: concat (map preorder children)
  end.

Fixpoint subtree (id : nat) (t : Tree) : option Tree :=
  match t with
  | Node i children =>
      if decide (i = id) then Some t
      else (fix first (l : list Tree) : option Tree :=
              match l with
              | [] => None
              | c :: l' =>
                  match subtree id c with
                  | Some s => Some s
                  | None => first l'
                  end
              end) children
  end.

Fixpoint subtreeIn (id : nat) (l : list Tree) : option Tree :=
  match l with
  | [] => None
  | c :: l' =>
      match subtree id c with
      | Some s => Some s
      | None => subtreeIn id l'
      end
  end.

(** What the host's parser makes of markup assigned to [innerHTML]: the
    element children it creates, as trees over the numbers 0, 1, ... of
    the new elements in [frag_elements]. *)
Record Fragment := {
  frag_trees : list Tree;
  frag_elements : list Element
}.

(** The host, as far as the property writes of the engine go through it:
    whether an element is a form control; for an element, the markup its
    [innerHTML] reads after a text was assigned to [textContent], and the
    text, the markup and the children it has after a markup was assigned
    to [innerHTML] (the children for a given number of the first new
    element); and the string an object, or a number outside the range
    printed in decimal digits, converts to. *)
Record Host := {
  isFormControl : nat -> bool;
  markupOfText : nat -> string -> string;
  textOfMarkup : nat -> string -> string;
  markupOfMarkup : nat -> string -> string;
  childrenOfMarkup : nat -> nat -> string -> Fragment;
  describe : Value -> string
}.

(** The state snippets and the engine act on: the document's element
    trees, the properties of every element, what [console.error] was
    called with, and the host the page runs in. *)
Record State := {
  document : list Tree;
  heap : gmap nat Element;
  console : list (list Value);
  host : Host
}.

(** An element the heap has no entry for is a freshly created one. *)
Definition elem (st : State) (id : nat) : Element :=
  default blankElement (heap st !! id).

Definition setElem (id : nat) (e : Element) (st : State) : State :=
  {| document := document st; heap := <[id := e]> (heap st);
     console := console st; host := host st |}.

Definition console_error (args : list Value) (st : State) : State :=
  {| document := document st; heap := heap st;
     console := console st ++ [args]; host := host st |}.

Definition docOrder (st : State) : list nat :=
  concat (map preorder (document st)).

Definition descendants (st : State) (id : nat) : list nat :=
  match subtreeIn id (document st) with
  | Some (Node _ children) => concat (map preorder children)
  | None => []
  end.

(** [register] is called with [document] or with an element. *)
Inductive Scope := ScopeDocument | ScopeElement (id : nat).

Definition hasAttribute (st : State) (name : string) (id : nat) : bool :=
  bool_decide (is_Some (attributes (elem st id) !! name)).

(** [scope.querySelectorAll(sel)] for a selector list of attribute
    selectors [[a1], [a2], ...], given by the attribute names: the
    matching descendants of the scope in document order. *)
Definition querySelectorAll (st : State) (scope : Scope) (sel : list string)
  : list nat :=
  filter (fun id => existsb (fun a => hasAttribute st a id) sel = true)
    match scope with
    | ScopeDocument => docOrder st
    | ScopeElement id => descendants st id
    end.

(** ** Property writes of the host DOM *)

(** JavaScript's ToString, the host's for what is not a primitive value
    and for the integers printed with an exponent. *)
Definition ToString (h : Host) (v : Value) : string :=
  match v with
  | VUndefined => "undefined"
  | VNull => "null"
  | VBool true => "true"
  | VBool false => "false"
  | VNum n =>
      if bool_decide (Z.abs n < 1000000000000000000000)%Z then pretty n
      else describe h v
  | VStr s => s
  | VElem _ | VEvent _ | VErr _ => describe h v
  end.

(** JavaScript's ToBoolean. *)
Definition truthy (v : Value) : bool :=
  match v with
  | VUndefined | VNull => false
  | VBool b => b
  | VNum n => negb (n =? 0)%Z
  | VStr s => negb (bool_decide (s = ""))
  | VElem _ | VEvent _ | VErr _ => true
  end.

(** The children of the element [id] replaced by [new], wherever the
    element is in the tree. *)
Fixpoint replaceChildren (id : nat) (new : list Tree) (t : Tree) : Tree :=
  match t with
  | Node i children =>
      if decide (i = id) then Node i new
      else Node i (map (replaceChildren id new) children)
  end.

Fixpoint shiftTree (base : nat) (t : Tree) : Tree :=
  match t with
  | Node i children => Node (base + i) (map (shiftTree base) children)
  end.

(** A number above those of all elements with a record or in the
    document: the number of the next new element. *)
Definition fresh (st : State) : nat :=
  S (max (max_list (map fst (map_to_list (heap st)))) (max_list (docOrder st))).

(** New elements given the numbers from [base] on. *)
Fixpoint allocate (base : nat) (els : list Element) (h : gmap nat Element)
  : gmap nat Element :=
  match els with
  | [] => h
  | e :: els' => <[base := e]> (allocate (S base) els' h)
  end.

(** [elm.textContent = v] (a nullable DOMString: null and undefined give
    the empty string): the children of the element are replaced by the
    text, so the elements below it leave the document, and its markup
    reads as the text escaped. *)
Definition set_textContent (id : nat) (v : Value) (st : State) : State :=
  let e := elem st id in
  let s := match v with
           | VUndefined | VNull => ""
           | _ => ToString (host st) v
           end in
  {| document := map (replaceChildren id []) (document st);
     heap := <[id := {| attributes := attributes e; display := display e;
                        mOriginalDisplay := mOriginalDisplay e;
                        value := value e;
                        textContent := s;
                        innerHTML := markupOfText (host st) id s;
                        form := form e; listeners := listeners e |}]>
               (heap st);
     console := console st; host := host st |}.

(** [elm.innerHTML = v] (null gives the empty string): the children of
    the element are replaced by what the host's parser makes of the
    markup, new elements all of them, and its text and markup read as the
    host has them for that markup. *)
Definition set_innerHTML (id : nat) (v : Value) (st : State) : State :=
  let e := elem st id in
  let s := match v with VNull => "" | _ => ToString (host st) v end in
  let base := fresh st in
  let frag := childrenOfMarkup (host st) id base s in
  {| document :=
       map (replaceChildren id (map (shiftTree base) (frag_trees frag)))
           (document st);
     heap := <[id := {| attributes := attributes e; display := display e;
                        mOriginalDisplay := mOriginalDisplay e;
                        value := value e;
                        textContent := textOfMarkup (host st) id s;
                        innerHTML := markupOfMarkup (host st) id s;
                        form := form e; listeners := listeners e |}]>
               (allocate base (frag_elements frag) (heap st));
     console := console st; host := host st |}.

(** [elm.value = v]: on a form control the value converted to a string
    (null gives the empty string); on another element a property of the
    script's own, which keeps the value as it is. *)
Definition set_value (id : nat) (v : Value) (st : State) : State :=
  let e := elem st id in
  let written :=
    if isFormControl (host st) id
    then VStr (match v with VNull => "" | _ => ToString (host st) v end)
    else v in
  setElem id {| attributes := attributes e; display := display e;
                mOriginalDisplay := mOriginalDisplay e; value := written;
                textContent := textContent e; innerHTML := innerHTML e;
                form := form e; listeners := listeners e |} st.

(** [elm.style.display = d]; [elm.style.removeProperty('display')] is
    [set_display id ""]. *)
Definition set_display (id : nat) (d : string) (st : State) : State :=
  let e := elem st id in
  setElem id {| attributes := attributes e; display := d;
                mOriginalDisplay := mOriginalDisplay e; value := value e;
                textContent := textContent e; innerHTML := innerHTML e;
                form := form e; listeners := listeners e |} st.

Definition set_mOriginalDisplay (id : nat) (d : string) (st : State) : State :=
  let e := elem st id in
  setElem id {| attributes := attributes e; display := display e;
                mOriginalDisplay := Some d; value := value e;
                textContent := textContent e; innerHTML := innerHTML e;
                form := form e; listeners := listeners e |} st.

(** [target.addEventListener(type, listener)]. *)
Definition addEventListener (target : nat) (type : string) (l : Listener)
    (st : State) : State :=
  let e := elem st target in
  setElem target {| attributes := attributes e; display := display e;
                    mOriginalDisplay := mOriginalDisplay e; value := value e;
                    textContent := textContent e; innerHTML := innerHTML e;
                    form := form e;
                    listeners := listeners e ++ [(type, l)] |} st.

(** ** The directive table *)

Definition AVAILABLE_EVENT_NAMES : list string :=
  ["blur"; "click"; "change"; "keyup"; "keydown"; "submit"].

Definition w_show (elm : nat) (evaluationResult : Value) (st : State) : State :=
  if truthy evaluationResult then
    match mOriginalDisplay (elem st elm) with
    | Some d =>
        if bool_decide (d = "") then set_display elm "" st
        else set_display elm d st
    | None => set_display elm "" st
    end
  else
    let st1 :=
      if bool_decide (display (elem st elm) = "none") then st
      else set_mOriginalDisplay elm (display (elem st elm)) st in
    set_display elm "none" st1.

Definition w_value (elm : nat) (evaluationResult : Value) (st : State) : State :=
  set_value elm evaluationResult st.

Definition w_update (elm : nat) (evaluationResult : Value) (st : State) : State :=
  st.

Definition w_text (elm : nat) (evaluationResult : Value) (st : State) : State :=
  set_textContent elm evaluationResult st.

Definition w_html (elm : nat) (evaluationResult : Value) (st : State) : State :=
  set_innerHTML elm evaluationResult st.

(** The entries of the table in the order [Object.entries] lists them. *)
Definition AVAILABLE_DIRECTIVES : list (string * (nat -> Value -> State -> State)) :=
  [("w-show", w_show); ("w-value", w_value); ("w-update", w_update);
   ("w-text", w_text); ("w-html", w_html)].

(** ** The reference registry *)

Definition collectRefs (st : State) : gmap string nat :=
  foldl (fun result elm =>
           match attributes (elem st elm) !! "w-ref" with
           | Some refName => <["$" +:+ refName := elm]> result
           | None => result
           end)
        ∅ (querySelectorAll st ScopeDocument ["w-ref"]).

(** The getter [refs]. *)
Definition refs (st : State) : gmap string nat := collectRefs st.

(** ** Runs of the engine *)

(** The call tree of a run: every call of [evaluateString], with the
    events of the calls nested in it (through [wUpdate]) and whether it
    threw, and every call of a directive handler.  It records what the
    engine did and is read by no definition. *)
Inductive Ev :=
  | EvEval (code : string) (contextThis : nat) (originalEvent : Value)
           (inner : list Ev) (threw : bool)
  | EvApply (directiveName : string) (elm : nat) (evaluationResult : Value).

(** How a call ends: it returns, it throws, or the model's fuel (the
    nesting depth of [evaluateString] allowed) is used up. *)
Inductive Outcome (A : Type) :=
  | Ret (a : A) (st : State) (tr : list Ev)
  | Thrown (error : Value) (st : State) (tr : list Ev)
  | Timeout.
Arguments Ret {A} a st tr.
Arguments Thrown {A} error st tr.
Arguments Timeout {A}.

Definition M (A : Type) : Type := State -> Outcome A.

Definition after {A} (tr0 : list Ev) (o : Outcome A) : Outcome A :=
  match o with
  | Ret a st tr => Ret a st (tr0 ++ tr)
  | Thrown e st tr => Thrown e st (tr0 ++ tr)
  | Timeout => Timeout
  end.

Definition ret {A} (a : A) : M A := fun st => Ret a st [].
Definition throw {A} (e : Value) : M A := fun st => Thrown e st [].
Definition bind {A B} (m : M A) (k : A -> M B) : M B := fun st =>
  match m st with
  | Ret a st' tr => after tr (k a st')
  | Thrown e st' tr => Thrown e st' tr
  | Timeout => Timeout
  end.

Notation "x <-- m ;; k" := (bind m (fun x => k))
  (at level 100, m at next level, right associativity).
Notation "m ;;; k" := (bind m (fun _ => k))
  (at level 100, right associativity).

(** [for (const x of l) { f(x) }] *)
Fixpoint forEach {A} (f : A -> M unit) (l : list A) : M unit :=
  match l with
  | [] => ret tt
  | x :: l' => f x ;;; forEach f l'
  end.

(** What a compiled snippet does when it is called: it returns or throws
    a value, reads and writes the state, and calls [wUpdate] on values,
    going on with [None] when the call returned and with [Some e] when it
    threw [e]. *)
Inductive Prog :=
  | PReturn (v : Value)
  | PThrow (e : Value)
  | PRead (k : State -> Prog)
  | PWrite (f : State -> State) (k : Prog)
  | PUpdate (targetElms : list Value) (k : option Value -> Prog).

(** A compiled snippet: from [this] and the variables of [context] (all
    but [wUpdate], which is [PUpdate]) to what the call does. *)
Definition Snippet : Type := nat -> gmap string Value -> Prog.

Fixpoint run (wUpdate : list Value -> M unit) (p : Prog) : M Value :=
  match p with
  | PReturn v => ret v
  | PThrow e => throw e
  | PRead k => fun st => run wUpdate (k st) st
  | PWrite f k => fun st => run wUpdate k (f st)
  | PUpdate targetElms k => fun st =>
      match wUpdate targetElms st with
      | Ret _ st' tr => after tr (run wUpdate (k None) st')
      | Thrown e st' tr => after tr (run wUpdate (k (Some e)) st')
      | Timeout => Timeout
      end
  end.

(** The object [{ wUpdate: ..., ...this.collectRefs(), $ev: originalEvent }]
    without its first entry: the references, then [$ev] over them. *)
Definition context (st : State) (originalEvent : Value) : gmap string Value :=
  <["$ev" := originalEvent]> (VElem <$> collectRefs st).

Definition errorMessage : string :=
  "error when running this code:" +:+ String (Ascii.ascii_of_nat 10) EmptyString.


Section Engine.

(** The host's [Function('context', `with (context) { ${code} }`)]:
    [None] when the code does not compile (a SyntaxError is thrown). *)
Variable Function_ : string -> option Snippet.

(** The body of the loop of [updateElement], and [updateElement] and
    [updateElements], over the evaluator they call.  Reading
    [targetElm.attributes[directiveName]] throws a TypeError when
    [targetElm] is not an element. *)
Definition applyDirective_ (evaluate : string -> nat -> Value -> M Value)
    (targetElm : Value)
    (entry : string * (nat -> Value -> State -> State)) : M unit :=
  let '(directiveName, directiveHandler) := entry in
  fun st =>
    match targetElm with
    | VElem id =>
        match attributes (elem st id) !! directiveName with
        | Some code =>
            (evaluationResult <-- evaluate code id VUndefined ;;
             fun st' =>
               Ret tt (directiveHandler id evaluationResult st')
                 [EvApply directiveName id evaluationResult]) st
        | None => Ret tt st []
        end
    | _ => Thrown (VErr "TypeError") st []
    end.

Definition updateElement_ (evaluate : string -> nat -> Value -> M Value)
    (targetElm : Value) : M unit :=
  forEach (applyDirective_ evaluate targetElm) AVAILABLE_DIRECTIVES.

Definition updateElements_ (evaluate : string -> nat -> Value -> M Value)
    (targetElms : list Value) : M unit :=
  forEach (updateElement_ evaluate) targetElms.

Fixpoint evaluateString (fuel : nat) (code : string) (contextThis : nat)
    (originalEvent : Value) : M Value :=
  match fuel with
  | 0 => fun _ => Timeout
  | S fuel' => fun st =>
      let tried :=
        match Function_ code with
        | None => Thrown (VErr "SyntaxError") st []
        | Some fun_ =>
            run (updateElements_ (evaluateString fuel'))
                (fun_ contextThis (context st originalEvent)) st
        end in
      match tried with
      | Ret v st' tr =>
          Ret v st' [EvEval code contextThis originalEvent tr false]
      | Thrown error st' tr =>
          Thrown error
            (console_error
               [VStr errorMessage; VStr code] st')
            [EvEval code contextThis originalEvent tr true]
      | Timeout => Timeout
      end
  end.

Definition updateElement (fuel : nat) : Value -> M unit :=
  updateElement_ (evaluateString fuel).

Definition updateElements (fuel : nat) : list Value -> M unit :=
  updateElements_ (evaluateString fuel).

Definition handleEvent (fuel : nat) (eventName : string) (targetElm : nat)
    (code : string) (originalEvent : Event) : M unit :=
  evaluateString fuel code targetElm (VEvent originalEvent) ;;; ret tt.

(** The body of the loop of [registerEventHandler]: [elm.form] is null
    for an element without a form owner, and calling a method on it throws
    a TypeError. *)
Definition bindEvent (elm : nat) (eventName : string) : M unit := fun st =>
  let attributeName := "w-on:" +:+ eventName in
  match attributes (elem st elm) !! attributeName with
  | None => Ret tt st []
  | Some code =>
      if bool_decide (eventName = "submit") then
        match form (elem st elm) with
        | Some f =>
            Ret tt (addEventListener f "submit" (SubmitListener elm code) st) []
        | None => Thrown (VErr "TypeError") st []
        end
      else
        Ret tt (addEventListener elm eventName
                  (EventListener eventName elm code) st) []
  end.

Definition registerEventHandler (elm : nat) : M unit :=
  forEach (bindEvent elm) AVAILABLE_EVENT_NAMES.

(** The elements [register] goes through, as scanned in [st].  The
    selector is [[...eventSelectors, directiveSelectors].join(', ')]: the
    event selectors joined with the text of the array of directive
    selectors, which is these selectors with commas between them; a list
    of all eleven attribute selectors. *)
Definition scanned (st : State) (scopeElm : Scope) : list nat :=
  let eventSelectors := map (fun key => "w-on:" +:+ key) AVAILABLE_EVENT_NAMES in
  let directiveSelectors := map fst AVAILABLE_DIRECTIVES in
  let elements :=
    querySelectorAll st scopeElm (eventSelectors ++ directiveSelectors) in
  match scopeElm with
  | ScopeDocument => elements
  | ScopeElement id => id :: elements
  end.

Definition registerElement (fuel : nat) (elm : nat) : M unit :=
  registerEventHandler elm ;;; updateElement fuel (VElem elm).

Definition register (fuel : nat) (scopeElm : Scope) : M unit := fun st =>
  forEach (registerElement fuel) (scanned st scopeElm) st.

(** The body of a listener, called by the host with the event. *)
Definition callListener (fuel : nat) (l : Listener) (ev : Event) : M unit :=
  match l with
  | SubmitListener elm code =>
      if bool_decide (ev_submitter ev = Some elm)
      then handleEvent fuel "submit" elm code ev
      else ret tt
  | EventListener eventName elm code => handleEvent fuel eventName elm code ev
  end.

(** The host dispatching an event, at the target: the listeners added to
    the target for the event's type are called in the order they were
    added; an exception of a listener is reported by the host and the next
    listener is still called.  (The host goes on to the listeners of the
    ancestors for the events that bubble; that part is not here.) *)
Definition reported (m : M unit) : M unit := fun st =>
  match m st with
  | Thrown _ st' tr => Ret tt st' tr
  | o => o
  end.

Definition dispatchEvent (fuel : nat) (ev : Event) : M unit := fun st =>
  forEach (fun l => reported (callListener fuel l.2 ev))
          (filter (fun l => l.1 = ev_type ev)
                  (listeners (elem st (ev_target ev))))
          st.

(** The start of the page: [DOMContentLoaded] registers the document, and
    the mutation observer registers every added node that is an element
    ([nodeType == 1]). *)
Definition onDOMContentLoaded (fuel : nat) : M unit :=
  register fuel ScopeDocument.

Definition onMutations (fuel : nat) (mutationsList : list (list (option nat)))
  : M unit :=
  forEach (fun addedNodes =>
             forEach (fun addedNode =>
                        match addedNode with
                        | Some id => register fuel (ScopeElement id)
                        | None => ret tt
                        end)
                     addedNodes)
          mutationsList.

End Engine.

(** ** Definitions the properties are stated with *)

(** The last element in document order carrying the reference attribute
    with the name [refName]. *)
Definition lastRef (st : State) (refName : string) : option nat :=
  last (filter (fun id => attributes (elem st id) !! "w-ref" = Some refName)
               (docOrder st)).

(** The listeners added to an element for the submit event. *)
Definition submitListeners (e : Element) : list (string * Listener) :=
  filter (fun l => l.1 = "submit") (listeners e).

(** [st'] is [st] with the listeners [extra] added to [elm], and nothing
    else changed in what the event binder reads. *)
Definition listenersAdded (elm : nat) (extra : list (string * Listener))
    (st st' : State) : Prop :=
  document st' = document st /\ console st' = console st /\
  forall id,
    attributes (elem st' id) = attributes (elem st id) /\
    form (elem st' id) = form (elem st id) /\
    listeners (elem st' id)
      = listeners (elem st id) ++ (if decide (id = elm) then extra else []).

(** The events a call left at the top of its call tree, when it ended. *)
Definition traceOf {A} (o : Outcome A) : option (list Ev) :=
  match o with
  | Ret _ _ tr | Thrown _ _ tr => Some tr
  | Timeout => None
  end.

(** The final state of a call, when it ended. *)
Definition stateOf {A} (o : Outcome A) : option State :=
  match o with
  | Ret _ st _ | Thrown _ st _ => Some st
  | Timeout => None
  end.

(** The loop of [updateElement] over the element [id], entry by entry:
    [directivesInOrder Function_ fuel id ds st o] says that going through
    the entries [ds] of a directive table in their order, from the state
    [st], comes to [o].  An entry whose attribute the element does not
    carry is passed over; for an entry whose attribute it carries, the
    value of that attribute is evaluated with [this] the element and no
    event, the handler of the entry is called on the element with the
    result, and the next entry is read in the state the handler left; an
    evaluation that throws ends the loop there. *)
Inductive directivesInOrder (Function_ : string -> option Snippet)
    (fuel : nat) (id : nat)
  : list (string * (nat -> Value -> State -> State)) -> State ->
    Outcome unit -> Prop :=
  | directives_done st :
      directivesInOrder Function_ fuel id [] st (Ret tt st [])
  | directive_absent directiveName directiveHandler ds st o :
      attributes (elem st id) !! directiveName = None ->
      directivesInOrder Function_ fuel id ds st o ->
      directivesInOrder Function_ fuel id
        ((directiveName, directiveHandler) :: ds) st o
  | directive_applied directiveName directiveHandler ds st code
                      evaluationResult st1 tr o :
      attributes (elem st id) !! directiveName = Some code ->
      evaluateString Function_ fuel code id VUndefined st
        = Ret evaluationResult st1 tr ->
      directivesInOrder Function_ fuel id ds
        (directiveHandler id evaluationResult st1) o ->
      directivesInOrder Function_ fuel id
        ((directiveName, directiveHandler) :: ds) st
        (after (tr ++ [EvApply directiveName id evaluationResult]) o)
  | directive_threw directiveName directiveHandler ds st code error st1 tr :
      attributes (elem st id) !! directiveName = Some code ->
      evaluateString Function_ fuel code id VUndefined st
        = Thrown error st1 tr ->
      directivesInOrder Function_ fuel id
        ((directiveName, directiveHandler) :: ds) st (Thrown error st1 tr)
  | directive_cut directiveName directiveHandler ds st code :
      attributes (elem st id) !! directiveName = Some code ->
      evaluateString Function_ fuel code id VUndefined st = Timeout ->
      directivesInOrder Function_ fuel id
        ((directiveName, directiveHandler) :: ds) st Timeout.

(** The loop of [register], element by element:
    [elementsInOrder Function_ fuel elements st o] says that going
    through [elements] in their order, from the state [st], comes to [o].
    Each element is handed to the event binder, which leaves nothing in
    the call tree, and then to [updateElement] in the state the binder
    left; the next element is taken up in the state that left; a throw of
    either ends the loop there. *)
Inductive elementsInOrder (Function_ : string -> option Snippet) (fuel : nat)
  : list nat -> State -> Outcome unit -> Prop :=
  | elements_done st :
      elementsInOrder Function_ fuel [] st (Ret tt st [])
  | element_registered elm elements st st1 st2 tr o :
      registerEventHandler elm st = Ret tt st1 [] ->
      updateElement Function_ fuel (VElem elm) st1 = Ret tt st2 tr ->
      elementsInOrder Function_ fuel elements st2 o ->
      elementsInOrder Function_ fuel (elm :: elements) st (after tr o)
  | element_binder_threw elm elements st error st1 :
      registerEventHandler elm st = Thrown error st1 [] ->
      elementsInOrder Function_ fuel (elm :: elements) st (Thrown error st1 [])
  | element_update_threw elm elements st st1 error st2 tr :
      registerEventHandler elm st = Ret tt st1 [] ->
      updateElement Function_ fuel (VElem elm) st1 = Thrown error st2 tr ->
      elementsInOrder Function_ fuel (elm :: elements) st (Thrown error st2 tr)
  | element_update_cut elm elements st st1 :
      registerEventHandler elm st = Ret tt st1 [] ->
      updateElement Function_ fuel (VElem elm) st1 = Timeout ->
      elementsInOrder Function_ fuel (elm :: elements) st Timeout.

(** What the handler of the show directive writes, on the element
    alone. *)
Definition showOn (evaluationResult : Value) (e : Element) : Element :=
  if truthy evaluationResult then
    {| attributes := attributes e;
       display := match mOriginalDisplay e with
                  | Some d => if bool_decide (d = "") then "" else d
                  | None => ""
                  end;
       mOriginalDisplay := mOriginalDisplay e; value := value e;
       textContent := textContent e; innerHTML := innerHTML e;
       form := form e; listeners := listeners e |}
  else
    {| attributes := attributes e; display := "none";
       mOriginalDisplay := if bool_decide (display e = "none")
                           then mOriginalDisplay e else Some (display e);
       value := value e; textContent := textContent e;
       innerHTML := innerHTML e; form := form e; listeners := listeners e |}.

(** What the handlers of the value, text and markup directives write, on
    the element alone, in the host [h]. *)
Definition valueOn (h : Host) (id : nat) (v : Value) (e : Element) : Element :=
  {| attributes := attributes e; display := display e;
     mOriginalDisplay := mOriginalDisplay e;
     value := if isFormControl h id
              then VStr (match v with VNull => "" | _ => ToString h v end)
              else v;
     textContent := textContent e; innerHTML := innerHTML e;
     form := form e; listeners := listeners e |}.

Definition textOn (h : Host) (id : nat) (v : Value) (e : Element) : Element :=
  let s := match v with VUndefined | VNull => "" | _ => ToString h v end in
  {| attributes := attributes e; display := display e;
     mOriginalDisplay := mOriginalDisplay e; value := value e;
     textContent := s; innerHTML := markupOfText h id s;
     form := form e; listeners := listeners e |}.

Definition htmlOn (h : Host) (id : nat) (v : Value) (e : Element) : Element :=
  let s := match v with VNull => "" | _ => ToString h v end in
  {| attributes := attributes e; display := display e;
     mOriginalDisplay := mOriginalDisplay e; value := value e;
     textContent := textOfMarkup h id s; innerHTML := markupOfMarkup h id s;
     form := form e; listeners := listeners e |}.

Definition writtenOn (h : Host) (id : nat) (directiveName : string) (v : Value)
    (e : Element) : Element :=
  if bool_decide (directiveName = "w-show") then showOn v e
  else if bool_decide (directiveName = "w-value") then valueOn h id v e
  else if bool_decide (directiveName = "w-text") then textOn h id v e
  else if bool_decide (directiveName = "w-html") then htmlOn h id v e
  else e.

(** The states that differ from [st] at most in what an update of the
    element [id] can change: the display, the cached display, the value,
    the text and the markup of [id], and its [style] and [value]
    attributes, which the host keeps in step with the properties; the
    tree below [id] and the elements in it, old and new; and the value,
    the text and the markup of the elements [id] is below.  The console,
    the host, the tree elsewhere and the other properties of the elements
    of [st] are those of [st]. *)
Definition sameInputs (id : nat) (st st' : State) : Prop :=
  console st' = console st /\ host st' = host st /\
  map (replaceChildren id []) (document st')
    = map (replaceChildren id []) (document st) /\
  (forall j, is_Some (heap st !! j) -> is_Some (heap st' !! j)) /\
  (forall j, is_Some (heap st !! j) -> j ≠ id -> j ∉ descendants st id ->
     attributes (elem st' j) = attributes (elem st j) /\
     display (elem st' j) = display (elem st j) /\
     mOriginalDisplay (elem st' j) = mOriginalDisplay (elem st j) /\
     form (elem st' j) = form (elem st j) /\
     listeners (elem st' j) = listeners (elem st j) /\
     (id ∉ descendants st j ->
      value (elem st' j) = value (elem st j) /\
      textContent (elem st' j) = textContent (elem st j) /\
      innerHTML (elem st' j) = innerHTML (elem st j))) /\
  (forall a, a ≠ "style" -> a ≠ "value" ->
     attributes (elem st' id) !! a = attributes (elem st id) !! a) /\
  form (elem st' id) = form (elem st id) /\
  listeners (elem st' id) = listeners (elem st id).

(** A snippet of a directive of [id] that is pure, with inputs an update
    of [id] leaves unchanged: called in [st], or in a state that differs
    from [st] at most in what an update of [id] can change, it returns
    one and the same value, changes nothing and calls no [wUpdate]. *)
Definition pureSnippet (id : nat) (st : State) (fun_ : Snippet) : Prop :=
  exists v, forall (wUpdate : list Value -> M unit) st',
    sameInputs id st st' ->
    run wUpdate (fun_ id (context st' VUndefined)) st' = Ret v st' [].

(** The value the snippet of a directive of [id] returns in [st]. *)
Definition pureResult (Function_ : string -> option Snippet) (fuel : nat)
    (id : nat) (st : State) (directiveName : string) : option Value :=
  match attributes (elem st id) !! directiveName with
  | Some code =>
      match evaluateString Function_ fuel code id VUndefined st with
      | Ret v _ _ => Some v
      | _ => None
      end
  | None => None
  end.

(** The listeners the binder makes of the bindings of [elm] other than
    submit, in the order of [AVAILABLE_EVENT_NAMES], read in [st]. *)
Definition ownBindings (st : State) (elm : nat) : list (string * Listener) :=
  omap (fun eventName =>
          (fun code => (eventName, EventListener eventName elm code))
            <$> attributes (elem st elm) !! ("w-on:" +:+ eventName))
       (filter (fun eventName => eventName ≠ "submit") AVAILABLE_EVENT_NAMES).

(** [target.addEventListener] called for each of [bs] in turn. *)
Definition addListeners (target : nat) (bs : list (string * Listener))
    (st : State) : State :=
  foldl (fun s b => addEventListener target b.1 b.2 s) st bs.

(** The attribute names of the selectors [register] scans for. *)
Definition recognised : list string :=
  ["w-on:blur"; "w-on:click"; "w-on:change"; "w-on:keyup"; "w-on:keydown";
   "w-on:submit"; "w-show"; "w-value"; "w-update"; "w-text"; "w-html"].

(** ** Example documents and snippets *)

Module Examples.

Definition el (attrs : list (string * string)) (d : string) (f : option nat)
  : Element :=
  {| attributes := list_to_map attrs; display := d; mOriginalDisplay := None;
     value := VStr ""; textContent := ""; innerHTML := ""; form := f;
     listeners := [] |}.

(** A host for pages whose texts and markups hold no tags and nothing to
    escape: a text reads back as markup unchanged and the other way
    round, and no element comes out of a markup.  [controls] are the form
    controls. *)
Definition plainHost (controls : list nat) : Host :=
  {| isFormControl := fun id => bool_decide (id ∈ controls);
     markupOfText := fun _ s => s;
     textOfMarkup := fun _ s => s;
     markupOfMarkup := fun _ s => s;
     childrenOfMarkup := fun _ _ _ => {| frag_trees := []; frag_elements := [] |};
     describe := fun _ => "[object Object]" |}.

Definition docWith (h : Host) (trees : list Tree) (els : list (nat * Element))
  : State :=
  {| document := trees; heap := list_to_map els; console := []; host := h |}.

Definition doc (trees : list Tree) (els : list (nat * Element)) : State :=
  docWith (plainHost []) trees els.

(** What the host makes of [wUpdate($t)]: a call of [wUpdate] with what
    [$t] is in the context, a ReferenceError when it is nothing there. *)
Definition wUpdate_t : Snippet := fun _ ctx =>
  match ctx !! "$t" with
  | Some v =>
      PUpdate [v] (fun r => match r with
                            | None => PReturn VUndefined
                            | Some e => PThrow e
                            end)
  | None => PThrow (VErr "ReferenceError")
  end.

(** What the host's compiler makes of the snippets used below. *)
Definition compiled (code : string) : option Snippet :=
  if bool_decide (code = "return 1+1") then
    Some (fun _ _ => PReturn (VNum 2))
  else if bool_decide (code = "wUpdate($t)") then Some wUpdate_t
  else if bool_decide (code = "return $a") then
    Some (fun _ ctx => PReturn (default VUndefined (ctx !! "$a")))
  else if bool_decide (code = "throw 'boom'") then
    Some (fun _ _ => PThrow (VStr "boom"))
  else if bool_decide (code = "return 'x'") then
    Some (fun _ _ => PReturn (VStr "x"))
  else if bool_decide (code = "return $src.value") then
    Some (fun _ ctx =>
            match ctx !! "$src" with
            | Some (VElem s) => PRead (fun st => PReturn (value (elem st s)))
            | _ => PThrow (VErr "TypeError")
            end)
  else if bool_decide (code = "") then
    Some (fun _ _ => PReturn VUndefined)
  else None.

(** Two elements carrying the same reference name. *)
Definition twoRefs : State :=
  doc [Node 1 []; Node 2 []]
      [(1, el [("w-ref", "a")] "" None); (2, el [("w-ref", "a")] "" None)].

(** An element with a throwing show directive before its text directive,
    and a second element with a text directive. *)
Definition failing : State :=
  doc [Node 1 []; Node 2 []]
      [(1, el [("w-show", "throw 'boom'"); ("w-text", "return 'x'")] "" None);
       (2, el [("w-text", "return 'x'")] "" None)].

(** A control with a click and a submit binding and no form. *)
Definition orphanSubmit : State :=
  doc [Node 1 [Node 2 []]]
      [(1, el [] "" None);
       (2, el [("w-on:click", ""); ("w-on:submit", "")] "" None)].

(** A form with two submit controls, each with a submit binding. *)
Definition twoSubmits : State :=
  doc [Node 1 [Node 2 []; Node 3 []]]
      [(1, el [] "" None);
       (2, el [("w-on:submit", "return 1+1")] "" (Some 1));
       (3, el [("w-on:submit", "throw 'boom'")] "" (Some 1))].

Definition submitVia (f : nat) (submitter : nat) : Event :=
  {| ev_type := "submit"; ev_target := f; ev_submitter := Some submitter |}.

(** An input and three elements with directives, in a small tree. *)
Definition page : State :=
  doc [Node 1 [Node 2 []; Node 3 [Node 4 []]; Node 5 []]]
      [(1, el [] "" None);
       (2, el [("w-ref", "src")] "" None);
       (3, el [("w-html", "return 'x'"); ("w-show", "return 1+1")] "block" None);
       (4, el [("w-text", "return $src.value"); ("w-value", "return $src.value")]
              "" None);
       (5, el [("w-ref", "t"); ("w-text", "return 1+1")] "" None)].

(** The two spans of the scenario, with the attribute names of the
    engine and with the names [data-ref], [data-text], [data-on-click]. *)
Definition scenario : State :=
  doc [Node 1 []; Node 2 []]
      [(1, el [("w-ref", "t"); ("w-text", "return 1+1")] "" None);
       (2, el [("w-on:click", "wUpdate($t)")] "" None)].

Definition dataScenario : State :=
  doc [Node 1 []; Node 2 []]
      [(1, el [("data-ref", "t"); ("data-text", "return 1+1")] "" None);
       (2, el [("data-on-click", "wUpdate($t)")] "" None)].

(** A hidden element with a cached display, a detached element with a
    reference name, and a control with three bindings in a form. *)
Definition mixed : State :=
  doc [Node 1 [Node 2 []; Node 3 []]]
      [(1, el [("w-ref", "form")] "" None);
       (2, {| attributes := list_to_map [("w-show", "return $a"); ("w-ref", "a")];
              display := "none"; mOriginalDisplay := Some "flex";
              value := VStr ""; textContent := ""; innerHTML := "";
              form := None; listeners := [] |});
       (3, el [("w-on:keyup", "return 1+1"); ("w-on:blur", "");
               ("w-on:submit", "throw 'boom'")] "" (Some 1));
       (9, el [("w-ref", "gone")] "" None)].

(** An element with a child and four pure directives, before the control
    its snippets read. *)
Definition pureDoc : State :=
  docWith (plainHost [2])
    [Node 1 [Node 4 [Node 5 []]; Node 2 []]]
    [(1, el [] "" None);
     (4, {| attributes :=
              list_to_map [("w-show", "return 1+1");
                           ("w-value", "return $src.value");
                           ("w-text", "return $src.value");
                           ("w-html", "return 'x'")];
            display := "inline"; mOriginalDisplay := None;
            value := VUndefined; textContent := "old";
            innerHTML := "<i>old</i>"; form := None; listeners := [] |});
     (5, el [("w-ref", "old")] "" None);
     (2, {| attributes := list_to_map [("w-ref", "src")];
            display := ""; mOriginalDisplay := None;
            value := VStr "hello"; textContent := ""; innerHTML := "";
            form := None; listeners := [] |})].

Definition clickOn (target : nat) : Event :=
  {| ev_type := "click"; ev_target := target; ev_submitter := None |}.

End Examples.

(** * Properties *)

(** ** Elementary facts about states, outcomes and loops *)

Lemma elem_setElem_eq id e st : elem (setElem id e st) id = e.
Proof. unfold elem, setElem; simpl. by rewrite lookup_insert_eq. Qed.

Lemma elem_setElem_ne id j e st : id ≠ j -> elem (setElem id e st) j = elem st j.
Proof. intros H. unfold elem, setElem; simpl. by rewrite lookup_insert_ne. Qed.

Lemma setElem_setElem id e1 e2 st :
  setElem id e2 (setElem id e1 st) = setElem id e2 st.
Proof. unfold setElem; simpl. by rewrite insert_insert_eq. Qed.

Lemma docOrder_setElem id e st : docOrder (setElem id e st) = docOrder st.
Proof. reflexivity. Qed.

Lemma after_nil {A} (o : Outcome A) : after [] o = o.
Proof. by destruct o. Qed.

Lemma after_after {A} tr1 tr2 (o : Outcome A) :
  after tr1 (after tr2 o) = after (tr1 ++ tr2) o.
Proof. destruct o; simpl; by rewrite ?app_assoc. Qed.

Lemma ref_key_inj (n1 n2 : string) : "$" +:+ n1 = "$" +:+ n2 -> n1 = n2.
Proof. intros H. cbn in H. by injection H. Qed.

(** ** The reference registry: the last element in document order wins *)

Lemma hasAttribute_ref st id :
  existsb (fun a => hasAttribute st a id) ["w-ref"] = true <->
  is_Some (attributes (elem st id) !! "w-ref").
Proof.
  simpl. rewrite orb_false_r. unfold hasAttribute.
  by rewrite bool_decide_eq_true.
Qed.

Lemma collectRefs_fold st (l : list nat) (acc : gmap string nat) refName :
  foldl (fun result elm =>
           match attributes (elem st elm) !! "w-ref" with
           | Some r => <["$" +:+ r := elm]> result
           | None => result
           end) acc
        (filter (fun id => existsb (fun a => hasAttribute st a id) ["w-ref"] = true) l)
    !! ("$" +:+ refName)
  = match last (filter (fun id => attributes (elem st id) !! "w-ref" = Some refName) l) with
    | Some e => Some e
    | None => acc !! ("$" +:+ refName)
    end.
Proof.
  induction l as [|x l IH] using rev_ind; [reflexivity|].
  rewrite !filter_app, foldl_app.
  destruct (attributes (elem st x) !! "w-ref") as [r|] eqn:Hx.
  - rewrite (filter_cons_True _ x []) by (apply hasAttribute_ref; rewrite Hx; eauto).
    simpl. rewrite Hx.
    destruct (decide (r = refName)) as [->|Hne].
    + rewrite lookup_insert_eq.
      rewrite (filter_cons_True _ x []) by done.
      rewrite filter_nil. by rewrite last_snoc.
    + rewrite lookup_insert_ne by (intros E; apply ref_key_inj in E; done).
      rewrite (filter_cons_False _ x []) by congruence.
      rewrite filter_nil, app_nil_r. apply IH.
  - rewrite (filter_cons_False _ x [])
      by (rewrite hasAttribute_ref, Hx; intros [? ?]; done).
    rewrite (filter_cons_False _ x []) by congruence.
    rewrite !filter_nil, !app_nil_r. apply IH.
Qed.

Lemma collectRefs_lookup st refName :
  collectRefs st !! ("$" +:+ refName) = lastRef st refName.
Proof.
  unfold collectRefs, querySelectorAll, lastRef.
  rewrite collectRefs_fold. rewrite lookup_empty.
  by destruct (last _).
Qed.

Lemma lastRef_last st l1 E l2 refName :
  docOrder st = l1 ++ E :: l2 ->
  attributes (elem st E) !! "w-ref" = Some refName ->
  Forall (fun x => attributes (elem st x) !! "w-ref" ≠ Some refName) l2 ->
  lastRef st refName = Some E.
Proof.
  intros Hd HE Hl2. unfold lastRef. rewrite Hd, filter_app.
  rewrite filter_cons_True by done.
  assert (filter (fun id => attributes (elem st id) !! "w-ref" = Some refName) l2 = []) as ->.
  { clear Hd. induction Hl2 as [|x l Hx _ IH]; [done|].
    rewrite filter_cons_False by done. exact IH. }
  by rewrite last_snoc.
Qed.

(** ** C8 *)

(** C8: when several elements carry the reference attribute with the same
    name, [collectRefs] maps that name (under its key, the name with [$]
    in front) to the last of them in document order; it is a total
    function of the state, so nothing is raised and nothing validated. *)
Theorem collectRefs_last_found_wins (st : State) (refName : string) :
  collectRefs st !! ("$" +:+ refName) = lastRef st refName.
Proof. apply collectRefs_lookup. Qed.

Example collectRefs_twoRefs :
  collectRefs Examples.twoRefs !! "$a" = Some 2.
Proof. vm_compute. reflexivity. Qed.

(** ** C1 *)

(** C1, as stated, fails: of two elements carrying the same reference name
    the first is in the document and carries the name, and the mapping
    holds the other one, under the key [$a] and under no key [a]. *)
Lemma refs_first_of_two_not_mapped :
  ~ (forall (st : State) (E : nat) (n : string),
       E ∈ docOrder st ->
       attributes (elem st E) !! "w-ref" = Some n ->
       refs st !! ("$" +:+ n) = Some E \/ refs st !! n = Some E).
Proof.
  intros H.
  specialize (H Examples.twoRefs 1 "a").
  assert (1 ∈ docOrder Examples.twoRefs) as H1 by (vm_compute; set_solver).
  specialize (H H1 eq_refl).
  vm_compute in H. destruct H as [H|H]; discriminate H.
Qed.

(** C1, amended: an element E of the document carrying the reference name
    n, with no later element in document order carrying n, is what [refs]
    (that is, a fresh [collectRefs]) holds under the key [$n] in that very
    state, and for n other than [ev] what the context of an evaluation in
    that state holds under [$n]: a snippet returning [$n] returns E. *)
Theorem refs_live_last_element (Function_ : string -> option Snippet)
    (st : State) (l1 l2 : list nat) (E : nat) (n : string)
    (fuel : nat) (code : string) (contextThis : nat) (originalEvent : Value) :
  docOrder st = l1 ++ E :: l2 ->
  attributes (elem st E) !! "w-ref" = Some n ->
  Forall (fun x => attributes (elem st x) !! "w-ref" ≠ Some n) l2 ->
  refs st !! ("$" +:+ n) = Some E /\
  (n ≠ "ev" ->
   context st originalEvent !! ("$" +:+ n) = Some (VElem E) /\
   (Function_ code
      = Some (fun _ ctx => PReturn (default VUndefined (ctx !! ("$" +:+ n)))) ->
    evaluateString Function_ (S fuel) code contextThis originalEvent st
      = Ret (VElem E) st [EvEval code contextThis originalEvent [] false])).
Proof.
  intros Hd HE Hl2.
  assert (collectRefs st !! ("$" +:+ n) = Some E) as Hc.
  { rewrite collectRefs_lookup. eapply lastRef_last; eauto. }
  split; [exact Hc|]. intros Hev.
  assert (context st originalEvent !! ("$" +:+ n) = Some (VElem E)) as Hx.
  { unfold context. rewrite lookup_insert_ne.
    - by rewrite lookup_fmap, Hc.
    - change "$ev" with ("$" +:+ "ev"). intros Heq.
      apply ref_key_inj in Heq. congruence. }
  split; [exact Hx|]. intros HF.
  simpl. rewrite HF. simpl. by rewrite Hx.
Qed.

Example context_ev_is_the_event :
  let st := Examples.doc [Node 1 []] [(1, Examples.el [("w-ref", "ev")] "" None)] in
  refs st !! "$ev" = Some 1 /\
  context st VUndefined !! "$ev" = Some VUndefined.
Proof. split; reflexivity. Qed.

Lemma refs_live_last_element_witness :
  refs Examples.twoRefs !! "$a" = Some 2 /\
  evaluateString Examples.compiled 1 "return $a" 1 VUndefined Examples.twoRefs
    = Ret (VElem 2) Examples.twoRefs [EvEval "return $a" 1 VUndefined [] false].
Proof.
  pose proof (refs_live_last_element Examples.compiled Examples.twoRefs
                [1] [] 2 "a" 0 "return $a" 1 VUndefined
                eq_refl eq_refl (List.Forall_nil _)) as [H1 H2].
  split; [exact H1|].
  apply H2; [discriminate | reflexivity].
Defined.

(** ** C3 *)

Lemma display_set_display id d st : display (elem (set_display id d st) id) = d.
Proof. unfold set_display. by rewrite elem_setElem_eq. Qed.

Lemma mOriginalDisplay_set_display id d st :
  mOriginalDisplay (elem (set_display id d st) id) = mOriginalDisplay (elem st id).
Proof. unfold set_display. by rewrite elem_setElem_eq. Qed.

Lemma mOriginalDisplay_set_mOriginalDisplay id d st :
  mOriginalDisplay (elem (set_mOriginalDisplay id d st) id) = Some d.
Proof. unfold set_mOriginalDisplay. by rewrite elem_setElem_eq. Qed.



(** ** C9 *)

(** C9: a snippet whose execution throws has its source logged with
    [console.error] and the error it threw thrown on, unchanged; a snippet
    that returns has its value returned (undefined included) and nothing
    logged; whenever the evaluator throws, the last thing logged is the
    snippet. *)
Theorem evaluateString_logs_and_rethrows (Function_ : string -> option Snippet)
    (fuel : nat) (code : string) (contextThis : nat) (originalEvent : Value)
    (st : State) (fun_ : Snippet) :
  Function_ code = Some fun_ ->
  (forall error st' tr,
     run (updateElements Function_ fuel)
         (fun_ contextThis (context st originalEvent)) st = Thrown error st' tr ->
     evaluateString Function_ (S fuel) code contextThis originalEvent st
       = Thrown error
           (console_error [VStr errorMessage; VStr code] st')
           [EvEval code contextThis originalEvent tr true]) /\
  (forall v st' tr,
     run (updateElements Function_ fuel)
         (fun_ contextThis (context st originalEvent)) st = Ret v st' tr ->
     evaluateString Function_ (S fuel) code contextThis originalEvent st
       = Ret v st' [EvEval code contextThis originalEvent tr false]) /\
  (forall error st1 tr1,
     evaluateString Function_ (S fuel) code contextThis originalEvent st
       = Thrown error st1 tr1 ->
     last (console st1) = Some [VStr errorMessage; VStr code]).
Proof.
  intros HF. simpl. rewrite HF. unfold updateElements.
  split; [|split].
  - intros error st' tr ->. reflexivity.
  - intros v st' tr ->. reflexivity.
  - intros error st1 tr1.
    destruct (run _ _ st) as [v st' tr|e st' tr|]; [discriminate| |discriminate].
    intros [= _ <- _]. simpl. apply last_snoc.
Qed.

Lemma evaluateString_logs_and_rethrows_witness :
  let st := Examples.doc [Node 1 []] [(1, Examples.el [] "" None)] in
  evaluateString Examples.compiled 1 "throw 'boom'" 1 VUndefined st
    = Thrown (VStr "boom")
        (console_error [VStr errorMessage; VStr "throw 'boom'"] st)
        [EvEval "throw 'boom'" 1 VUndefined [] true].
Proof.
  intros st.
  apply (proj1 (evaluateString_logs_and_rethrows Examples.compiled 0
                  "throw 'boom'" 1 VUndefined st _ eq_refl)).
  reflexivity.
Defined.

Example evaluateString_falls_through :
  let st := Examples.doc [Node 1 []] [(1, Examples.el [] "" None)] in
  evaluateString Examples.compiled 1 "" 1 VUndefined st
    = Ret VUndefined st [EvEval "" 1 VUndefined [] false].
Proof. reflexivity. Qed.

Example evaluateString_syntax_error :
  let st := Examples.doc [Node 1 []] [(1, Examples.el [] "" None)] in
  evaluateString Examples.compiled 1 "return (" 1 VUndefined st
    = Thrown (VErr "SyntaxError")
        (console_error [VStr errorMessage; VStr "return ("] st)
        [EvEval "return (" 1 VUndefined [] true].
Proof. reflexivity. Qed.

(** ** Loops *)

Lemma forEach_app {A} (f : A -> M unit) (l1 l2 : list A) (st : State) :
  forEach f (l1 ++ l2) st = (forEach f l1 ;;; forEach f l2) st.
Proof.
  revert st. induction l1 as [|x l1 IH]; intros st; simpl.
  - unfold bind, ret. by rewrite after_nil.
  - unfold bind. destruct (f x st) as [[] st1 tr1| |]; [|done|done].
    rewrite IH. unfold bind.
    destruct (forEach f l1 st1) as [[] st2 tr2| |]; simpl; [|done|done].
    by rewrite after_after.
Qed.

Lemma forEach_throws {A} (f : A -> M unit) (pre post : list A) (x : A)
    (st st1 st2 : State) (tr1 tr2 : list Ev) (error : Value) :
  forEach f pre st = Ret tt st1 tr1 ->
  f x st1 = Thrown error st2 tr2 ->
  forEach f (pre ++ x :: post) st = Thrown error st2 (tr1 ++ tr2).
Proof.
  intros Hpre Hx. rewrite forEach_app. unfold bind at 1. rewrite Hpre.
  simpl. unfold bind. by rewrite Hx.
Qed.

(** ** C2 *)

(** C2, as stated, fails: the show snippet of the first example element
    throws, and its text snippet, also present, is then not evaluated
    (the element's text stays empty), nor is the second element of the
    same [wUpdate] call touched. *)
Lemma updateElement_stops_at_first_throw :
  ~ (forall (Function_ : string -> option Snippet) (fuel : nat) (id : nat)
            (st : State) (directiveName code : string),
       directiveName ∈ map fst AVAILABLE_DIRECTIVES ->
       attributes (elem st id) !! directiveName = Some code ->
       exists tr, traceOf (updateElement Function_ (S fuel) (VElem id) st) = Some tr /\
                  exists ev inner threw, EvEval code id ev inner threw ∈ tr).
Proof.
  intros H.
  destruct (H Examples.compiled 0 1 Examples.failing "w-text" "return 'x'")
    as (tr & Htr & ev & inner & threw & Hin).
  - vm_compute. set_solver.
  - reflexivity.
  - vm_compute in Htr. injection Htr as <-.
    apply list_elem_of_singleton in Hin. discriminate Hin.
Qed.

Example updateElements_failing :
  updateElements Examples.compiled 1 [VElem 1; VElem 2] Examples.failing
    = Thrown (VStr "boom")
        (console_error [VStr errorMessage; VStr "throw 'boom'"] Examples.failing)
        [EvEval "throw 'boom'" 1 VUndefined [] true].
Proof. reflexivity. Qed.

(** C2, amended: the directives of an element are gone through in table
    order with no guard around any of them: when the directives before
    one have been applied and the evaluation of that one's snippet throws,
    [updateElement] throws the same error in the state the evaluation left
    (the snippet logged), the handler of that directive and the directives
    after it are not run, and [updateElements] does not go on to the
    remaining elements. *)
Theorem updateElement_throw_aborts (Function_ : string -> option Snippet)
    (fuel : nat) (id : nat) (st st1 st2 : State) (tr1 tr2 : list Ev)
    (pre post : list (string * (nat -> Value -> State -> State)))
    (directiveName code : string)
    (directiveHandler : nat -> Value -> State -> State)
    (error : Value) (rest : list Value) :
  AVAILABLE_DIRECTIVES = pre ++ (directiveName, directiveHandler) :: post ->
  forEach (applyDirective_ (evaluateString Function_ fuel) (VElem id)) pre st
    = Ret tt st1 tr1 ->
  attributes (elem st1 id) !! directiveName = Some code ->
  evaluateString Function_ fuel code id VUndefined st1 = Thrown error st2 tr2 ->
  updateElement Function_ fuel (VElem id) st = Thrown error st2 (tr1 ++ tr2) /\
  updateElements Function_ fuel (VElem id :: rest) st
    = Thrown error st2 (tr1 ++ tr2).
Proof.
  intros Htab Hpre Hattr Hev.
  assert (updateElement Function_ fuel (VElem id) st
          = Thrown error st2 (tr1 ++ tr2)) as Hu.
  { unfold updateElement, updateElement_. rewrite Htab.
    eapply forEach_throws; [exact Hpre|].
    unfold applyDirective_. rewrite Hattr. unfold bind. by rewrite Hev. }
  split; [exact Hu|].
  unfold updateElements, updateElements_. simpl. unfold bind.
  unfold updateElement in Hu. by rewrite Hu.
Qed.

Lemma updateElement_throw_aborts_witness :
  updateElement Examples.compiled 1 (VElem 1) Examples.failing
    = Thrown (VStr "boom")
        (console_error [VStr errorMessage; VStr "throw 'boom'"] Examples.failing)
        [EvEval "throw 'boom'" 1 VUndefined [] true].
Proof.
  apply (proj1 (updateElement_throw_aborts Examples.compiled 1 1
                  Examples.failing Examples.failing _ [] _
                  [] _ "w-show" "throw 'boom'" w_show (VStr "boom") []
                  eq_refl eq_refl eq_refl eq_refl)).
Defined.

(** ** The event binder *)

Lemma elem_addEventListener target type l st id :
  elem (addEventListener target type l st) id
  = if decide (id = target) then
      {| attributes := attributes (elem st id); display := display (elem st id);
         mOriginalDisplay := mOriginalDisplay (elem st id);
         value := value (elem st id); textContent := textContent (elem st id);
         innerHTML := innerHTML (elem st id); form := form (elem st id);
         listeners := listeners (elem st id) ++ [(type, l)] |}
    else elem st id.
Proof.
  unfold addEventListener. destruct (decide (id = target)) as [->|Hne].
  - by rewrite elem_setElem_eq.
  - by rewrite elem_setElem_ne.
Qed.

Lemma listenersAdded_refl elm st : listenersAdded elm [] st st.
Proof.
  split; [done|]. split; [done|]. intros id.
  split; [done|]. split; [done|].
  destruct (decide (id = elm)); simpl; rewrite app_nil_r; reflexivity.
Qed.

Lemma listenersAdded_addEventListener elm type l st :
  listenersAdded elm [(type, l)] st (addEventListener elm type l st).
Proof.
  split; [done|]. split; [done|]. intros id.
  rewrite elem_addEventListener.
  destruct (decide (id = elm)); simpl; rewrite ?app_nil_r; done.
Qed.

Lemma listenersAdded_trans elm extra1 extra2 st1 st2 st3 :
  listenersAdded elm extra1 st1 st2 -> listenersAdded elm extra2 st2 st3 ->
  listenersAdded elm (extra1 ++ extra2) st1 st3.
Proof.
  intros (Hd1 & Hc1 & H1) (Hd2 & Hc2 & H2).
  split; [congruence|]. split; [congruence|]. intros id.
  destruct (H1 id) as (Ha1 & Hf1 & Hl1), (H2 id) as (Ha2 & Hf2 & Hl2).
  split; [congruence|]. split; [congruence|].
  rewrite Hl2, Hl1. destruct (decide (id = elm)).
  - by rewrite app_assoc.
  - by rewrite !app_nil_r.
Qed.

(** The bindings other than submit add their listeners to the element
    itself and cannot fail. *)
Lemma bindEvent_not_submit elm eventName st :
  eventName ≠ "submit" ->
  exists st' extra,
    bindEvent elm eventName st = Ret tt st' [] /\
    listenersAdded elm extra st st' /\
    Forall (fun l => l.1 ≠ "submit") extra.
Proof.
  intros Hne. unfold bindEvent.
  destruct (attributes (elem st elm) !! ("w-on:" +:+ eventName)) as [code|].
  - rewrite bool_decide_eq_false_2 by done.
    eexists _, _. split; [reflexivity|]. split.
    + apply listenersAdded_addEventListener.
    + by constructor.
  - exists st, []. split; [reflexivity|]. split.
    + apply listenersAdded_refl.
    + constructor.
Qed.

Lemma forEach_bindEvent_not_submit elm (names : list string) st :
  Forall (fun n => n ≠ "submit") names ->
  exists st' extra,
    forEach (bindEvent elm) names st = Ret tt st' [] /\
    listenersAdded elm extra st st' /\
    Forall (fun l => l.1 ≠ "submit") extra.
Proof.
  intros Hn. revert st. induction Hn as [|n names Hn _ IH]; intros st.
  - exists st, []. split; [reflexivity|]. split.
    + apply listenersAdded_refl.
    + constructor.
  - destruct (bindEvent_not_submit elm n st Hn) as (st1 & ex1 & H1 & R1 & F1).
    destruct (IH st1) as (st2 & ex2 & H2 & R2 & F2).
    exists st2, (ex1 ++ ex2). split.
    + simpl. unfold bind. rewrite H1. simpl. by rewrite H2.
    + split; [by eapply listenersAdded_trans|]. by apply Forall_app.
Qed.

Lemma submitListeners_app_other (l extra : list (string * Listener)) :
  Forall (fun l => l.1 ≠ "submit") extra ->
  filter (fun l => l.1 = "submit") (l ++ extra)
  = filter (fun l => l.1 = "submit") l.
Proof.
  intros HF. rewrite filter_app.
  assert (filter (fun l : string * Listener => l.1 = "submit") extra = []) as ->.
  { induction HF as [|x extra' Hx _ IH]; [done|].
    rewrite filter_cons_False by done. exact IH. }
  by rewrite app_nil_r.
Qed.

Lemma submitListeners_added elm extra st st' id :
  listenersAdded elm extra st st' ->
  Forall (fun l => l.1 ≠ "submit") extra ->
  submitListeners (elem st' id) = submitListeners (elem st id).
Proof.
  intros (_ & _ & H) HF. destruct (H id) as (_ & _ & Hl).
  unfold submitListeners. rewrite Hl.
  destruct (decide (id = elm)).
  - by apply submitListeners_app_other.
  - by rewrite app_nil_r.
Qed.

Lemma registerEventHandler_split elm st :
  registerEventHandler elm st
  = (forEach (bindEvent elm) ["blur"; "click"; "change"; "keyup"; "keydown"] ;;;
     bindEvent elm "submit") st.
Proof.
  unfold registerEventHandler, AVAILABLE_EVENT_NAMES.
  change ["blur"; "click"; "change"; "keyup"; "keydown"; "submit"]
    with (["blur"; "click"; "change"; "keyup"; "keydown"] ++ ["submit"]).
  rewrite forEach_app. unfold bind.
  destruct (forEach (bindEvent elm) _ st) as [[] st1 tr1| |]; [|done|done].
  f_equal. simpl. unfold bind.
  destruct (bindEvent elm "submit" st1) as [[] st2 tr2| |]; simpl;
    by rewrite ?app_nil_r.
Qed.

Lemma not_submit_names :
  Forall (fun n : string => n ≠ "submit")
         ["blur"; "click"; "change"; "keyup"; "keydown"].
Proof. repeat constructor; discriminate. Qed.

(** With a submit binding and no form, the binder throws after the other
    bindings of the element were attached. *)
Lemma registerEventHandler_no_form elm st code :
  attributes (elem st elm) !! "w-on:submit" = Some code ->
  form (elem st elm) = None ->
  exists st' extra,
    registerEventHandler elm st = Thrown (VErr "TypeError") st' [] /\
    listenersAdded elm extra st st' /\
    Forall (fun l => l.1 ≠ "submit") extra.
Proof.
  intros Ha Hf. rewrite registerEventHandler_split.
  destruct (forEach_bindEvent_not_submit elm _ st not_submit_names)
    as (st1 & extra & H1 & R1 & F1).
  exists st1, extra. split; [|done].
  unfold bind. rewrite H1. simpl.
  destruct R1 as (_ & _ & R1). destruct (R1 elm) as (Ha1 & Hf1 & _).
  unfold bindEvent.
  change ("w-on:" +:+ "submit") with "w-on:submit".
  rewrite Ha1, Ha. rewrite bool_decide_eq_true_2 by done.
  by rewrite Hf1, Hf.
Qed.

(** With a submit binding and the form [f], the binder adds the guarded
    listener to [f]. *)
Lemma registerEventHandler_form elm f st code :
  attributes (elem st elm) !! "w-on:submit" = Some code ->
  form (elem st elm) = Some f ->
  exists st1 extra,
    registerEventHandler elm st
      = Ret tt (addEventListener f "submit" (SubmitListener elm code) st1) [] /\
    listenersAdded elm extra st st1 /\
    Forall (fun l => l.1 ≠ "submit") extra.
Proof.
  intros Ha Hf. rewrite registerEventHandler_split.
  destruct (forEach_bindEvent_not_submit elm _ st not_submit_names)
    as (st1 & extra & H1 & R1 & F1).
  exists st1, extra. split; [|done].
  unfold bind. rewrite H1. simpl.
  destruct R1 as (_ & _ & R1). destruct (R1 elm) as (Ha1 & Hf1 & _).
  unfold bindEvent.
  change ("w-on:" +:+ "submit") with "w-on:submit".
  rewrite Ha1, Ha. rewrite bool_decide_eq_true_2 by done.
  by rewrite Hf1, Hf.
Qed.

Lemma registerEventHandler_form_listeners elm f st code :
  attributes (elem st elm) !! "w-on:submit" = Some code ->
  form (elem st elm) = Some f ->
  exists st',
    registerEventHandler elm st = Ret tt st' [] /\
    (forall id, attributes (elem st' id) = attributes (elem st id) /\
                form (elem st' id) = form (elem st id)) /\
    submitListeners (elem st' f)
      = submitListeners (elem st f) ++ [("submit", SubmitListener elm code)] /\
    (forall id, id ≠ f ->
                submitListeners (elem st' id) = submitListeners (elem st id)).
Proof.
  intros Ha Hf.
  destruct (registerEventHandler_form elm f st code Ha Hf)
    as (st1 & extra & Hr & R1 & F1).
  eexists. split; [exact Hr|].
  pose proof R1 as (_ & _ & R1').
  split; [|split].
  - intros id. rewrite elem_addEventListener.
    destruct (R1' id) as (Ha1 & Hf1 & _).
    by destruct (decide (id = f)).
  - rewrite elem_addEventListener. rewrite decide_True by done.
    unfold submitListeners at 1. simpl. rewrite filter_app.
    rewrite (filter_cons_True _ _ []) by done. rewrite filter_nil. f_equal.
    by eapply submitListeners_added.
  - intros id Hne. rewrite elem_addEventListener.
    rewrite decide_False by done. by eapply submitListeners_added.
Qed.

Lemma evaluateString_trace Function_ fuel code contextThis originalEvent st tr :
  traceOf (evaluateString Function_ fuel code contextThis originalEvent st)
    = Some tr ->
  exists inner threw, tr = [EvEval code contextThis originalEvent inner threw].
Proof.
  destruct fuel as [|fuel]; [discriminate|]. simpl.
  destruct (Function_ code) as [fun_|].
  - destruct (run _ _ st) as [v st' tr'|e st' tr'|]; simpl;
      intros [= <-]; eauto.
  - simpl. intros [= <-]. eauto.
Qed.

Lemma handleEvent_trace Function_ fuel eventName targetElm code ev st tr :
  traceOf (handleEvent Function_ fuel eventName targetElm code ev st) = Some tr ->
  exists inner threw, tr = [EvEval code targetElm (VEvent ev) inner threw].
Proof.
  unfold handleEvent, bind.
  destruct (evaluateString _ _ _ _ _ st) as [v st' tr'|e st' tr'|] eqn:He;
    simpl; [| |discriminate]; intros [= <-].
  - rewrite app_nil_r.
    apply (evaluateString_trace Function_ fuel code targetElm (VEvent ev) st).
    by rewrite He.
  - apply (evaluateString_trace Function_ fuel code targetElm (VEvent ev) st).
    by rewrite He.
Qed.

(** ** C10 *)

(** C10: when the turn of an element with a submit binding and no form
    comes in [register], [registerEventHandler] throws the TypeError of
    calling a method on null, and so does [register], before any directive
    of the element is applied; no submit listener is added anywhere, in
    particular not to the element itself. *)
Theorem submit_binding_without_form_throws
    (Function_ : string -> option Snippet) (fuel : nat) (scopeElm : Scope)
    (st st1 : State) (pre post : list nat) (elm : nat) (tr1 : list Ev)
    (code : string) :
  scanned st scopeElm = pre ++ elm :: post ->
  forEach (registerElement Function_ fuel) pre st = Ret tt st1 tr1 ->
  attributes (elem st1 elm) !! "w-on:submit" = Some code ->
  form (elem st1 elm) = None ->
  exists st2,
    registerEventHandler elm st1 = Thrown (VErr "TypeError") st2 [] /\
    register Function_ fuel scopeElm st = Thrown (VErr "TypeError") st2 tr1 /\
    (forall id, submitListeners (elem st2 id) = submitListeners (elem st1 id)).
Proof.
  intros Hs Hpre Ha Hf.
  destruct (registerEventHandler_no_form elm st1 code Ha Hf)
    as (st2 & extra & Hr & R & HF).
  exists st2. split; [exact Hr|]. split.
  - unfold register. rewrite Hs.
    rewrite <- (app_nil_r tr1).
    eapply forEach_throws; [exact Hpre|].
    unfold registerElement, bind. by rewrite Hr.
  - intros id. by eapply submitListeners_added.
Qed.

Lemma submit_binding_without_form_throws_witness :
  exists st2,
    register Examples.compiled 0 ScopeDocument Examples.orphanSubmit
      = Thrown (VErr "TypeError") st2 [] /\
    submitListeners (elem st2 2) = [].
Proof.
  destruct (submit_binding_without_form_throws Examples.compiled 0
              ScopeDocument Examples.orphanSubmit Examples.orphanSubmit
              [] [] 2 [] "" eq_refl eq_refl eq_refl eq_refl)
    as (st2 & _ & Hr & Hl).
  exists st2. split; [exact Hr|]. rewrite Hl. reflexivity.
Defined.

Example register_orphanSubmit_element :
  register Examples.compiled 0 (ScopeElement 2) Examples.orphanSubmit
    = Thrown (VErr "TypeError")
        (addEventListener 2 "click" (EventListener "click" 2 "")
           Examples.orphanSubmit)
        [].
Proof. reflexivity. Qed.

(** ** C4 *)



(** ** C7 *)

Lemma registerEventHandler_trace elm st tr :
  traceOf (registerEventHandler elm st) = Some tr -> tr = [].
Proof.
  rewrite registerEventHandler_split. unfold bind.
  destruct (forEach_bindEvent_not_submit elm _ st not_submit_names)
    as (st1 & extra & -> & _ & _).
  simpl. unfold bindEvent.
  destruct (attributes (elem st1 elm) !! _); [|by intros [= <-]].
  simpl. destruct (form (elem st1 elm)); by intros [= <-].
Qed.

Lemma directives_loop Function_ fuel id
    (ds : list (string * (nat -> Value -> State -> State))) st :
  directivesInOrder Function_ fuel id ds st
    (forEach (applyDirective_ (evaluateString Function_ fuel) (VElem id)) ds st).
Proof.
  revert st. induction ds as [|[d h] ds IH]; intros st.
  - apply directives_done.
  - cbn [forEach]. unfold bind, applyDirective_ at 1.
    destruct (attributes (elem st id) !! d) as [code|] eqn:Ha.
    + unfold bind.
      destruct (evaluateString Function_ fuel code id VUndefined st)
        as [v st1 tr|e st1 tr|] eqn:He.
      * cbn [after].
        eapply directive_applied; [exact Ha|exact He|apply IH].
      * eapply directive_threw; [exact Ha|exact He].
      * eapply directive_cut; [exact Ha|exact He].
    + rewrite after_nil. apply directive_absent; [exact Ha|apply IH].
Qed.

Lemma elements_loop Function_ fuel (elements : list nat) st :
  elementsInOrder Function_ fuel elements st
    (forEach (registerElement Function_ fuel) elements st).
Proof.
  revert st. induction elements as [|elm elements IH]; intros st.
  - apply elements_done.
  - cbn [forEach]. unfold bind, registerElement at 1. unfold bind.
    destruct (registerEventHandler elm st) as [[] st1 tr1|e st1 tr1|] eqn:Hr.
    + assert (tr1 = []) as ->
        by (eapply registerEventHandler_trace; by rewrite Hr).
      rewrite after_nil.
      destruct (updateElement Function_ fuel (VElem elm) st1)
        as [[] st2 tr|e st2 tr|] eqn:Hu.
      * eapply element_registered; [exact Hr|exact Hu|apply IH].
      * eapply element_update_threw; [exact Hr|exact Hu].
      * eapply element_update_cut; [exact Hr|exact Hu].
    + assert (tr1 = []) as ->
        by (eapply registerEventHandler_trace; by rewrite Hr).
      by apply element_binder_threw.
    + exfalso. revert Hr. rewrite registerEventHandler_split. unfold bind.
      destruct (forEach_bindEvent_not_submit elm _ st not_submit_names)
        as (st1 & extra & -> & _ & _).
      simpl. unfold bindEvent.
      destruct (attributes (elem st1 elm) !! _); [|done].
      simpl. by destruct (form (elem st1 elm)).
Qed.

Lemma directives_loop_only Function_ fuel id
    (ds : list (string * (nat -> Value -> State -> State))) st o :
  directivesInOrder Function_ fuel id ds st o ->
  forEach (applyDirective_ (evaluateString Function_ fuel) (VElem id)) ds st = o.
Proof.
  induction 1 as [st|d h ds st o Ha _ IH|d h ds st code v st1 tr o Ha He _ IH
                 |d h ds st code e st1 tr Ha He|d h ds st code Ha He];
    [reflexivity|..];
    cbn [forEach]; unfold bind, applyDirective_ at 1; rewrite Ha.
  - by rewrite after_nil.
  - unfold bind. rewrite He. cbn [after]. by rewrite IH.
  - unfold bind. by rewrite He.
  - unfold bind. by rewrite He.
Qed.

Lemma elements_loop_only Function_ fuel (elements : list nat) st o :
  elementsInOrder Function_ fuel elements st o ->
  forEach (registerElement Function_ fuel) elements st = o.
Proof.
  induction 1 as [st|elm elements st st1 st2 tr o Hr Hu _ IH
                 |elm elements st e st1 Hr|elm elements st st1 e st2 tr Hr Hu
                 |elm elements st st1 Hr Hu];
    [reflexivity|..];
    cbn [forEach]; unfold bind, registerElement at 1; unfold bind; rewrite Hr.
  - rewrite after_nil, Hu. by rewrite IH.
  - reflexivity.
  - by rewrite after_nil, Hu.
  - by rewrite after_nil, Hu.
Qed.

(** C7: [updateElement] on an element goes through the directive table
    in the one order show, value, update, text, html: each directive the
    element carries has the value of its own attribute evaluated, with
    [this] the element, and then its own handler called with the result,
    before the next directive is read, in the state the handler left;
    the first evaluation that throws ends the pass.  [register] goes
    through the elements of the scope that carry a recognised attribute
    as they were in document order when the scan was made (the scope
    element, when there is one, first), handing each to the event binder
    and then to [updateElement], one element after the other.  What the
    two calls come to is what going through the directives, and the
    elements, in that order comes to, and nothing else. *)
Theorem directives_in_table_order_elements_in_scan_order
    (Function_ : string -> option Snippet) (fuel : nat) :
  (forall id st o,
     directivesInOrder Function_ fuel id
       [("w-show", w_show); ("w-value", w_value); ("w-update", w_update);
        ("w-text", w_text); ("w-html", w_html)]
       st o
     <-> updateElement Function_ fuel (VElem id) st = o) /\
  (forall scopeElm st o,
     elementsInOrder Function_ fuel
       match scopeElm with
       | ScopeDocument =>
           filter (fun elm =>
                     existsb (fun a => hasAttribute st a elm) recognised = true)
                  (docOrder st)
       | ScopeElement id =>
           id :: filter (fun elm =>
                           existsb (fun a => hasAttribute st a elm) recognised
                           = true)
                        (descendants st id)
       end
       st o
     <-> register Function_ fuel scopeElm st = o).
Proof.
  split.
  - intros id st o. split.
    + apply directives_loop_only.
    + intros <-. apply directives_loop.
  - intros scopeElm st o. unfold register. split.
    + destruct scopeElm as [|id]; apply elements_loop_only.
    + intros <-. destruct scopeElm as [|id]; apply elements_loop.
Qed.

(** The pass over an element with four directives, whose text directive
    is overwritten by its markup directive, and the scan of the two spans
    of the scenario, the second with a click binding only. *)
Lemma directives_in_table_order_elements_in_scan_order_witness :
  updateElement Examples.compiled 1 (VElem 4) Examples.pureDoc
    = Ret tt
        (w_html 4 (VStr "x")
           (w_text 4 (VStr "hello")
              (w_value 4 (VStr "hello")
                 (w_show 4 (VNum 2) Examples.pureDoc))))
        [EvEval "return 1+1" 4 VUndefined [] false;
         EvApply "w-show" 4 (VNum 2);
         EvEval "return $src.value" 4 VUndefined [] false;
         EvApply "w-value" 4 (VStr "hello");
         EvEval "return $src.value" 4 VUndefined [] false;
         EvApply "w-text" 4 (VStr "hello");
         EvEval "return 'x'" 4 VUndefined [] false;
         EvApply "w-html" 4 (VStr "x")] /\
  register Examples.compiled 1 ScopeDocument Examples.scenario
    = Ret tt
        (addEventListener 2 "click" (EventListener "click" 2 "wUpdate($t)")
           (w_text 1 (VNum 2) Examples.scenario))
        [EvEval "return 1+1" 1 VUndefined [] false;
         EvApply "w-text" 1 (VNum 2)].
Proof.
  split.
  - apply (proj1 (directives_in_table_order_elements_in_scan_order
                    Examples.compiled 1)).
    apply (directive_applied _ _ _ "w-show" w_show _ Examples.pureDoc
             "return 1+1" (VNum 2) Examples.pureDoc
             [EvEval "return 1+1" 4 VUndefined [] false]
             (Ret tt _ _));
      [reflexivity|reflexivity|].
    apply (directive_applied _ _ _ "w-value" w_value _ _
             "return $src.value" (VStr "hello")
             (w_show 4 (VNum 2) Examples.pureDoc)
             [EvEval "return $src.value" 4 VUndefined [] false]
             (Ret tt _ _));
      [reflexivity|reflexivity|].
    apply directive_absent; [reflexivity|].
    apply (directive_applied _ _ _ "w-text" w_text _ _
             "return $src.value" (VStr "hello")
             (w_value 4 (VStr "hello") (w_show 4 (VNum 2) Examples.pureDoc))
             [EvEval "return $src.value" 4 VUndefined [] false]
             (Ret tt _ _));
      [reflexivity|reflexivity|].
    apply (directive_applied _ _ _ "w-html" w_html _ _
             "return 'x'" (VStr "x")
             (w_text 4 (VStr "hello")
                (w_value 4 (VStr "hello") (w_show 4 (VNum 2) Examples.pureDoc)))
             [EvEval "return 'x'" 4 VUndefined [] false]
             (Ret tt _ _));
      [reflexivity|reflexivity|].
    apply directives_done.
  - apply (proj2 (directives_in_table_order_elements_in_scan_order
                    Examples.compiled 1) ScopeDocument).
    apply (element_registered _ _ 1 [2] Examples.scenario Examples.scenario
             (w_text 1 (VNum 2) Examples.scenario)
             [EvEval "return 1+1" 1 VUndefined [] false;
              EvApply "w-text" 1 (VNum 2)]
             (Ret tt _ []));
      [reflexivity|reflexivity|].
    apply (element_registered _ _ 2 [] _
             (addEventListener 2 "click" (EventListener "click" 2 "wUpdate($t)")
                (w_text 1 (VNum 2) Examples.scenario))
             (addEventListener 2 "click" (EventListener "click" 2 "wUpdate($t)")
                (w_text 1 (VNum 2) Examples.scenario))
             [] (Ret tt _ []));
      [reflexivity|reflexivity|].
    apply elements_done.
Defined.

Example register_page :
  traceOf (register Examples.compiled 1 ScopeDocument Examples.page)
  = Some [EvEval "return 1+1" 3 VUndefined [] false;
          EvApply "w-show" 3 (VNum 2);
          EvEval "return 'x'" 3 VUndefined [] false;
          EvApply "w-html" 3 (VStr "x");
          EvEval "return $src.value" 4 VUndefined [] false;
          EvApply "w-value" 4 (VStr "");
          EvEval "return $src.value" 4 VUndefined [] false;
          EvApply "w-text" 4 (VStr "");
          EvEval "return 1+1" 5 VUndefined [] false;
          EvApply "w-text" 5 (VNum 2)].
Proof. reflexivity. Qed.

(** ** C5 *)

Lemma registerEventHandler_unbound elm st :
  (forall eventName, eventName ∈ AVAILABLE_EVENT_NAMES ->
     attributes (elem st elm) !! ("w-on:" +:+ eventName) = None) ->
  registerEventHandler elm st = Ret tt st [].
Proof.
  unfold registerEventHandler. generalize AVAILABLE_EVENT_NAMES.
  intros names. induction names as [|n names IH]; intros H; [done|].
  simpl. unfold bind, bindEvent at 1.
  rewrite (H n) by constructor. simpl.
  rewrite IH; [done|]. intros m Hm. apply H. by constructor.
Qed.

Lemma updateElement_undirected evaluate id st :
  (forall directiveName, directiveName ∈ map fst AVAILABLE_DIRECTIVES ->
     attributes (elem st id) !! directiveName = None) ->
  updateElement_ evaluate (VElem id) st = Ret tt st [].
Proof.
  unfold updateElement_. generalize AVAILABLE_DIRECTIVES.
  intros ds. induction ds as [|[d h] ds IH]; intros H; [done|].
  simpl. unfold bind. rewrite (H d) by constructor. simpl.
  rewrite IH; [done|]. intros m Hm. apply H. by constructor.
Qed.

(** C5, as stated, fails: the engine knows no attribute [data-ref],
    [data-text] or [data-on-click]; the scan of the two spans written
    with them finds nothing, the text of the first stays empty, and a
    click on the second runs nothing. *)
Lemma data_attributes_not_scanned :
  register Examples.compiled 2 ScopeDocument Examples.dataScenario
    = Ret tt Examples.dataScenario [] /\
  textContent (elem Examples.dataScenario 1) <> "2" /\
  dispatchEvent Examples.compiled 2 (Examples.clickOn 2) Examples.dataScenario
    = Ret tt Examples.dataScenario [].
Proof. split; [reflexivity|]. split; [discriminate|reflexivity]. Qed.

Lemma elem_set_textContent_ne id j v st :
  id ≠ j -> elem (set_textContent id v st) j = elem st j.
Proof.
  intros H. unfold elem, set_textContent; simpl. by rewrite lookup_insert_ne.
Qed.

Lemma attributes_set_textContent id v st j :
  attributes (elem (set_textContent id v st) j) = attributes (elem st j).
Proof.
  destruct (decide (id = j)) as [->|Hne].
  - unfold elem at 1, set_textContent; simpl. by rewrite lookup_insert_eq.
  - by rewrite elem_set_textContent_ne.
Qed.

Lemma textContent_set_textContent id v st :
  textContent (elem (set_textContent id v st) id)
  = match v with VUndefined | VNull => "" | _ => ToString (host st) v end.
Proof.
  unfold elem at 1, set_textContent; simpl. by rewrite lookup_insert_eq.
Qed.

(** A pass over an element whose only directive is a text directive. *)
Lemma updateElement_text_only evaluate id st code v st' tr :
  attributes (elem st id) !! "w-show" = None ->
  attributes (elem st id) !! "w-value" = None ->
  attributes (elem st id) !! "w-update" = None ->
  attributes (elem st id) !! "w-text" = Some code ->
  attributes (elem st' id) !! "w-html" = None ->
  evaluate code id VUndefined st = Ret v st' tr ->
  updateElement_ evaluate (VElem id) st
    = Ret tt (set_textContent id v st') (tr ++ [EvApply "w-text" id v]).
Proof.
  intros H1 H2 H3 H4 H5 He.
  unfold updateElement_, AVAILABLE_DIRECTIVES. simpl. unfold bind.
  rewrite H1. simpl. rewrite H2. simpl. rewrite H3. simpl.
  rewrite H4, He. simpl. unfold w_text.
  rewrite attributes_set_textContent, H5. simpl.
  by rewrite !app_nil_r.
Qed.

(** The binder on an element whose only binding is a click binding. *)
Lemma registerEventHandler_click_only elm st code :
  attributes (elem st elm) !! "w-on:blur" = None ->
  attributes (elem st elm) !! "w-on:click" = Some code ->
  attributes (elem st elm) !! "w-on:change" = None ->
  attributes (elem st elm) !! "w-on:keyup" = None ->
  attributes (elem st elm) !! "w-on:keydown" = None ->
  attributes (elem st elm) !! "w-on:submit" = None ->
  registerEventHandler elm st
    = Ret tt (addEventListener elm "click" (EventListener "click" elm code) st) [].
Proof.
  intros H1 H2 H3 H4 H5 H6.
  unfold registerEventHandler, AVAILABLE_EVENT_NAMES. simpl. unfold bind.
  unfold bindEvent at 1. change ("w-on:" +:+ "blur") with "w-on:blur".
  rewrite H1. simpl.
  unfold bindEvent at 1. change ("w-on:" +:+ "click") with "w-on:click".
  rewrite H2. rewrite bool_decide_eq_false_2 by discriminate. simpl.
  set (st1 := addEventListener elm "click" _ st).
  assert (attributes (elem st1 elm) = attributes (elem st elm)) as Ha.
  { unfold st1. rewrite elem_addEventListener. by rewrite decide_True. }
  unfold bindEvent at 1. change ("w-on:" +:+ "change") with "w-on:change".
  rewrite Ha, H3. simpl.
  unfold bindEvent at 1. change ("w-on:" +:+ "keyup") with "w-on:keyup".
  rewrite Ha, H4. simpl.
  unfold bindEvent at 1. change ("w-on:" +:+ "keydown") with "w-on:keydown".
  rewrite Ha, H5. simpl.
  unfold bindEvent at 1. change ("w-on:" +:+ "submit") with "w-on:submit".
  rewrite Ha, H6. reflexivity.
Qed.

(** A click on an element whose click listener is the one the binder
    made of [wUpdate($t)], in a state where [$t] is the element [t]. *)
Lemma click_updates_reference Function_ fuel st b t ev :
  Function_ "wUpdate($t)" = Some Examples.wUpdate_t ->
  ev_type ev = "click" -> ev_target ev = b ->
  filter (fun l => l.1 = "click") (listeners (elem st b))
    = [("click", EventListener "click" b "wUpdate($t)")] ->
  collectRefs st !! "$t" = Some t ->
  dispatchEvent Function_ (S fuel) ev st
  = match updateElement Function_ fuel (VElem t) st with
    | Ret _ st' tr =>
        Ret tt st' [EvEval "wUpdate($t)" b (VEvent ev) tr false]
    | Thrown _ st' tr =>
        Ret tt (console_error [VStr errorMessage; VStr "wUpdate($t)"] st')
            [EvEval "wUpdate($t)" b (VEvent ev) tr true]
    | Timeout => Timeout
    end.
Proof.
  intros HF Hty Htg Hl Hc.
  unfold dispatchEvent. rewrite Hty, Htg, Hl.
  cbn [forEach callListener snd]. unfold bind, reported, handleEvent, bind.
  cbn [evaluateString]. rewrite HF. unfold Examples.wUpdate_t.
  assert (context st (VEvent ev) !! "$t" = Some (VElem t)) as ->.
  { unfold context. rewrite lookup_insert_ne by discriminate.
    by rewrite lookup_fmap, Hc. }
  cbn [run]. unfold updateElements_. cbn [forEach]. unfold bind.
  unfold updateElement.
  destruct (updateElement_ (evaluateString Function_ fuel) (VElem t) st)
    as [[] st' tr|e st' tr|]; simpl; by rewrite ?app_nil_r.
Qed.

(** C5, amended: written with the attribute names of the engine
    ([w-ref], [w-text], [w-on:click]), the scenario holds: when the scan of
    the document finds the two spans, the first one's text becomes 2 and
    the second gets a click listener; and in any later state where [$t] is
    the first span, a click on the second goes through the directives of
    the first as [updateElement] does in that state. *)
Theorem scan_sets_text_and_click_updates
    (Function_ : string -> option Snippet) (fuel : nat) (st : State)
    (t b : nat) :
  Function_ "return 1+1" = Some (fun _ _ => PReturn (VNum 2)) ->
  Function_ "wUpdate($t)" = Some Examples.wUpdate_t ->
  scanned st ScopeDocument = [t; b] ->
  t ≠ b ->
  attributes (elem st t)
    = list_to_map [("w-ref", "t"); ("w-text", "return 1+1")] ->
  attributes (elem st b) = list_to_map [("w-on:click", "wUpdate($t)")] ->
  exists st1,
    register Function_ (S fuel) ScopeDocument st
      = Ret tt st1 [EvEval "return 1+1" t VUndefined [] false;
                    EvApply "w-text" t (VNum 2)] /\
    textContent (elem st1 t) = "2" /\
    listeners (elem st1 b)
      = listeners (elem st b)
        ++ [("click", EventListener "click" b "wUpdate($t)")] /\
    forall st2 ev,
      ev_type ev = "click" -> ev_target ev = b ->
      filter (fun l => l.1 = "click") (listeners (elem st2 b))
        = [("click", EventListener "click" b "wUpdate($t)")] ->
      collectRefs st2 !! "$t" = Some t ->
      dispatchEvent Function_ (S (S fuel)) ev st2
      = match updateElement Function_ (S fuel) (VElem t) st2 with
        | Ret _ st3 tr =>
            Ret tt st3 [EvEval "wUpdate($t)" b (VEvent ev) tr false]
        | Thrown _ st3 tr =>
            Ret tt (console_error [VStr errorMessage; VStr "wUpdate($t)"] st3)
                [EvEval "wUpdate($t)" b (VEvent ev) tr true]
        | Timeout => Timeout
        end.
Proof.
  intros HF1 HF2 Hs Hne Ht Hb.
  set (st0 := set_textContent t (VNum 2) st).
  exists (addEventListener b "click" (EventListener "click" b "wUpdate($t)") st0).
  assert (registerEventHandler t st = Ret tt st []) as Hrt.
  { apply registerEventHandler_unbound. intros n Hn. rewrite Ht.
    unfold AVAILABLE_EVENT_NAMES in Hn.
    repeat (apply elem_of_cons in Hn as [->|Hn]; [reflexivity|]).
    by apply elem_of_nil in Hn. }
  assert (updateElement Function_ (S fuel) (VElem t) st
          = Ret tt st0 [EvEval "return 1+1" t VUndefined [] false;
                        EvApply "w-text" t (VNum 2)]) as Hut.
  { unfold updateElement.
    apply (updateElement_text_only _ t st "return 1+1" (VNum 2) st
             [EvEval "return 1+1" t VUndefined [] false]);
      try (rewrite Ht; reflexivity).
    simpl. by rewrite HF1. }
  assert (attributes (elem st0 b) = attributes (elem st b)) as Hab.
  { apply attributes_set_textContent. }
  assert (registerEventHandler b st0
          = Ret tt (addEventListener b "click"
                      (EventListener "click" b "wUpdate($t)") st0) []) as Hrb.
  { apply registerEventHandler_click_only; rewrite Hab, Hb; reflexivity. }
  assert (updateElement Function_ (S fuel) (VElem b)
            (addEventListener b "click" (EventListener "click" b "wUpdate($t)") st0)
          = Ret tt (addEventListener b "click"
                      (EventListener "click" b "wUpdate($t)") st0) []) as Hub.
  { apply updateElement_undirected. intros d Hd.
    rewrite elem_addEventListener, decide_True by done. simpl.
    rewrite Hab, Hb.
    repeat (apply elem_of_cons in Hd as [->|Hd]; [reflexivity|]).
    by apply elem_of_nil in Hd. }
  split; [|split; [|split]].
  - unfold register. rewrite Hs. cbn [forEach]. unfold bind, registerElement, bind.
    rewrite Hrt. rewrite after_nil, Hut. cbn [after].
    rewrite Hrb. rewrite after_nil, Hub. reflexivity.
  - rewrite elem_addEventListener, decide_False by done.
    unfold st0. by rewrite textContent_set_textContent.
  - rewrite elem_addEventListener, decide_True by done. simpl.
    unfold st0. by rewrite elem_set_textContent_ne.
  - intros st2 ev Hty Htg Hl Hc.
    by apply click_updates_reference.
Qed.

Lemma scan_sets_text_and_click_updates_witness :
  exists st1,
    register Examples.compiled 2 ScopeDocument Examples.scenario
      = Ret tt st1 [EvEval "return 1+1" 1 VUndefined [] false;
                    EvApply "w-text" 1 (VNum 2)] /\
    textContent (elem st1 1) = "2" /\
    dispatchEvent Examples.compiled 3 (Examples.clickOn 2) st1
      = Ret tt st1
          [EvEval "wUpdate($t)" 2 (VEvent (Examples.clickOn 2))
             [EvEval "return 1+1" 1 VUndefined [] false;
              EvApply "w-text" 1 (VNum 2)] false].
Proof.
  destruct (scan_sets_text_and_click_updates Examples.compiled 1
              Examples.scenario 1 2 eq_refl eq_refl eq_refl
              ltac:(discriminate) eq_refl eq_refl)
    as (st1 & Hr & Htxt & Hl & Hclick).
  exists st1. split; [exact Hr|]. split; [exact Htxt|].
  rewrite (Hclick st1 (Examples.clickOn 2)).
  - vm_compute in Hr. injection Hr as <-. reflexivity.
  - reflexivity.
  - reflexivity.
  - rewrite Hl. reflexivity.
  - vm_compute in Hr. injection Hr as <-. reflexivity.
Defined.

(** ** C6 *)

Lemma w_show_on id v st : w_show id v st = setElem id (showOn v (elem st id)) st.
Proof.
  unfold w_show, showOn, set_display, set_mOriginalDisplay.
  destruct (truthy v).
  - destruct (mOriginalDisplay (elem st id)) as [d|]; [|reflexivity].
    case_bool_decide; reflexivity.
  - case_bool_decide as Hd; [reflexivity|].
    by rewrite elem_setElem_eq, setElem_setElem.
Qed.

Lemma collectRefs_preserved st st' :
  document st' = document st ->
  (forall j, attributes (elem st' j) = attributes (elem st j)) ->
  collectRefs st' = collectRefs st.
Proof.
  intros Hd Ha. unfold collectRefs, querySelectorAll, docOrder. rewrite Hd.
  assert (forall (l : list nat) (acc : gmap string nat),
    foldl (fun result elm =>
             match attributes (elem st' elm) !! "w-ref" with
             | Some refName => <["$" +:+ refName := elm]> result
             | None => result
             end) acc
          (filter (fun id => existsb (fun a => hasAttribute st' a id) ["w-ref"] = true) l)
    = foldl (fun result elm =>
             match attributes (elem st elm) !! "w-ref" with
             | Some refName => <["$" +:+ refName := elm]> result
             | None => result
             end) acc
          (filter (fun id => existsb (fun a => hasAttribute st a id) ["w-ref"] = true) l))
    as Hfold.
  { induction l as [|x l IH]; intros acc; [done|].
    assert (hasAttribute st' "w-ref" x = hasAttribute st "w-ref" x) as Hx
      by (unfold hasAttribute; by rewrite Ha).
    destruct (hasAttribute st "w-ref" x) eqn:Hh.
    - rewrite !filter_cons_True by (simpl; by rewrite ?Hx, ?Hh).
      simpl. rewrite Ha. apply IH.
    - rewrite !filter_cons_False by (simpl; by rewrite ?Hx, ?Hh).
      apply IH. }
  apply Hfold.
Qed.

Lemma Tree_ind_nested (P : Tree -> Prop) :
  (forall i children, Forall P children -> P (Node i children)) ->
  forall t, P t.
Proof.
  intros H. fix IH 1. intros [i children]. apply H.
  induction children as [|c children IHc]; constructor; [apply IH|exact IHc].
Qed.

Lemma replaceChildren_twice id (new1 new2 : list Tree) t :
  replaceChildren id new2 (replaceChildren id new1 t) = replaceChildren id new2 t.
Proof.
  induction t as [i children IH] using Tree_ind_nested. simpl.
  destruct (decide (i = id)) as [Hi|Hi]; simpl.
  - by rewrite decide_True.
  - rewrite decide_False by done. f_equal. rewrite map_map.
    induction IH as [|c children Hc _ IHl]; [done|]. simpl. by rewrite Hc, IHl.
Qed.

Lemma pruned_replaced id (new : list Tree) (trees : list Tree) :
  map (replaceChildren id []) (map (replaceChildren id new) trees)
  = map (replaceChildren id []) trees.
Proof.
  rewrite map_map. induction trees as [|t trees IH]; [done|].
  simpl. by rewrite replaceChildren_twice, IH.
Qed.

Lemma fresh_above st j : is_Some (heap st !! j) -> j < fresh st.
Proof.
  intros [e He]. unfold fresh.
  assert (j ∈ map fst (map_to_list (heap st))) as Hj.
  { apply (list_elem_of_fmap_2 fst (map_to_list (heap st)) (j, e)).
    by apply elem_of_map_to_list. }
  apply max_list_elem_of_le in Hj. lia.
Qed.

Lemma allocate_below base els (h : gmap nat Element) j :
  j < base -> allocate base els h !! j = h !! j.
Proof.
  revert base. induction els as [|e els IH]; intros base Hj; [done|].
  simpl. rewrite lookup_insert_ne by lia. apply IH. lia.
Qed.

Lemma allocate_keeps base els (h : gmap nat Element) j :
  is_Some (h !! j) -> is_Some (allocate base els h !! j).
Proof.
  revert base. induction els as [|e els IH]; intros base Hj; [done|].
  simpl. apply lookup_insert_is_Some'. right. by apply IH.
Qed.

(** What a handler of the table does to the element it is called on, and
    that it leaves the other elements with a record as they are. *)
Lemma handler_writes directiveName directiveHandler id v st :
  (directiveName, directiveHandler) ∈ AVAILABLE_DIRECTIVES ->
  elem (directiveHandler id v st) id
    = writtenOn (host st) id directiveName v (elem st id) /\
  (forall j, j ≠ id -> is_Some (heap st !! j) ->
             elem (directiveHandler id v st) j = elem st j) /\
  (forall j, is_Some (heap st !! j) ->
             is_Some (heap (directiveHandler id v st) !! j)) /\
  console (directiveHandler id v st) = console st /\
  host (directiveHandler id v st) = host st /\
  map (replaceChildren id []) (document (directiveHandler id v st))
    = map (replaceChildren id []) (document st).
Proof.
  unfold AVAILABLE_DIRECTIVES. intros H.
  repeat (apply elem_of_cons in H as [H|H]; [injection H as -> ->|]).
  - rewrite w_show_on. split; [apply elem_setElem_eq|].
    split; [intros j Hj _; by apply elem_setElem_ne|].
    split; [|done]. intros j Hj. simpl. apply lookup_insert_is_Some'. by right.
  - unfold w_value, set_value. split; [apply elem_setElem_eq|].
    split; [intros j Hj _; by apply elem_setElem_ne|].
    split; [|done]. intros j Hj. simpl. apply lookup_insert_is_Some'. by right.
  - unfold w_update, writtenOn. simpl. done.
  - unfold w_text. split.
    { unfold elem at 1, set_textContent; simpl. by rewrite lookup_insert_eq. }
    split; [intros j Hj _; by apply elem_set_textContent_ne|].
    split; [intros j Hj; simpl; apply lookup_insert_is_Some'; by right|].
    split; [done|]. split; [done|]. simpl. apply pruned_replaced.
  - unfold w_html. split.
    { unfold elem at 1, set_innerHTML; simpl. by rewrite lookup_insert_eq. }
    split.
    { intros j Hj Hs. unfold elem, set_innerHTML; simpl.
      rewrite lookup_insert_ne by done.
      rewrite allocate_below; [done|]. by apply fresh_above. }
    split.
    { intros j Hj. simpl. apply lookup_insert_is_Some'. right.
      by apply allocate_keeps. }
    split; [done|]. split; [done|]. simpl. apply pruned_replaced.
  - by apply elem_of_nil in H.
Qed.

Lemma writtenOn_keeps h id directiveName v e :
  attributes (writtenOn h id directiveName v e) = attributes e /\
  form (writtenOn h id directiveName v e) = form e /\
  listeners (writtenOn h id directiveName v e) = listeners e.
Proof.
  unfold writtenOn. repeat case_bool_decide; try done.
  unfold showOn. by destruct (truthy v).
Qed.

Lemma sameInputs_refl id st : sameInputs id st st.
Proof. unfold sameInputs. by repeat split. Qed.

Lemma sameInputs_handler directiveName directiveHandler id v st st' :
  (directiveName, directiveHandler) ∈ AVAILABLE_DIRECTIVES ->
  sameInputs id st st' ->
  sameInputs id st (directiveHandler id v st').
Proof.
  intros Hin (Hc & Hh & Hd & Hdom & Hother & Ha & Hf & Hl).
  destruct (handler_writes directiveName directiveHandler id v st' Hin)
    as (Hid & Hne & Hkeep & Hc' & Hh' & Hd').
  destruct (writtenOn_keeps (host st') id directiveName v (elem st' id))
    as (Wa & Wf & Wl).
  unfold sameInputs. split; [congruence|]. split; [congruence|].
  split; [congruence|]. split; [by intros j Hj; apply Hkeep, Hdom|].
  split.
  - intros j Hj Hjid Hjdesc. rewrite Hne by (done || by apply Hdom).
    by apply Hother.
  - rewrite Hid. rewrite Wa, Wf, Wl. done.
Qed.

Lemma directive_names_kept directiveName :
  directiveName ∈ map fst AVAILABLE_DIRECTIVES ->
  directiveName ≠ "style" /\ directiveName ≠ "value".
Proof.
  unfold AVAILABLE_DIRECTIVES. simpl. intros H.
  repeat (apply elem_of_cons in H as [->|H]; [by split|]).
  by apply elem_of_nil in H.
Qed.

(** What one pass writes on the element, with the results of the
    snippets given: once more is no more. *)
Lemma on_twice h id (o1 o2 o4 o5 : option Value) e :
  let once := fun e0 =>
    match o5 with
    | Some v5 =>
        htmlOn h id v5
          match o4 with
          | Some v4 =>
              textOn h id v4
                match o2 with
                | Some v2 => valueOn h id v2
                               match o1 with Some v1 => showOn v1 e0 | None => e0 end
                | None => match o1 with Some v1 => showOn v1 e0 | None => e0 end
                end
          | None =>
              match o2 with
              | Some v2 => valueOn h id v2
                             match o1 with Some v1 => showOn v1 e0 | None => e0 end
              | None => match o1 with Some v1 => showOn v1 e0 | None => e0 end
              end
          end
    | None =>
        match o4 with
        | Some v4 =>
            textOn h id v4
              match o2 with
              | Some v2 => valueOn h id v2
                             match o1 with Some v1 => showOn v1 e0 | None => e0 end
              | None => match o1 with Some v1 => showOn v1 e0 | None => e0 end
              end
        | None =>
            match o2 with
            | Some v2 => valueOn h id v2
                           match o1 with Some v1 => showOn v1 e0 | None => e0 end
            | None => match o1 with Some v1 => showOn v1 e0 | None => e0 end
            end
        end
    end in
  once (once e) = once e.
Proof.
  destruct e.
  destruct o1 as [v1|], o2 as [v2|], o4 as [v4|], o5 as [v5|];
    cbv beta iota zeta; unfold showOn;
    try destruct (truthy v1); reflexivity.
Qed.

Lemma written_twice h id (r : string -> option Value) e :
  let once := fun e0 =>
    foldl (fun e1 (entry : string * (nat -> Value -> State -> State)) =>
             match r entry.1 with
             | Some v => writtenOn h id entry.1 v e1
             | None => e1
             end) e0 AVAILABLE_DIRECTIVES in
  once (once e) = once e.
Proof.
  pose proof (on_twice h id (r "w-show") (r "w-value") (r "w-text") (r "w-html") e)
    as H.
  cbv beta zeta in *. unfold AVAILABLE_DIRECTIVES. cbn [foldl fst].
  destruct (r "w-show") as [v1|], (r "w-value") as [v2|],
    (r "w-update") as [v3|], (r "w-text") as [v4|], (r "w-html") as [v5|];
    exact H.
Qed.

Section PurePass.

Variable Function_ : string -> option Snippet.
Variable fuel : nat.
Variable id : nat.
Variable st0 : State.

Hypothesis Hpure : forall directiveName code,
  directiveName ∈ map fst AVAILABLE_DIRECTIVES ->
  attributes (elem st0 id) !! directiveName = Some code ->
  exists fun_, Function_ code = Some fun_ /\ pureSnippet id st0 fun_.

Lemma evaluate_pure directiveName code :
  directiveName ∈ map fst AVAILABLE_DIRECTIVES ->
  attributes (elem st0 id) !! directiveName = Some code ->
  exists v,
    pureResult Function_ (S fuel) id st0 directiveName = Some v /\
    forall st', sameInputs id st0 st' ->
      evaluateString Function_ (S fuel) code id VUndefined st'
        = Ret v st' [EvEval code id VUndefined [] false].
Proof.
  intros Hd Ha. destruct (Hpure _ _ Hd Ha) as (fun_ & HF & v & Hv).
  assert (forall st', sameInputs id st0 st' ->
            evaluateString Function_ (S fuel) code id VUndefined st'
              = Ret v st' [EvEval code id VUndefined [] false]) as He.
  { intros st' Hs. cbn [evaluateString]. rewrite HF. by rewrite Hv. }
  exists v. split; [|exact He].
  unfold pureResult. rewrite Ha. by rewrite (He st0 (sameInputs_refl id st0)).
Qed.

Lemma pure_pass (ds : list (string * (nat -> Value -> State -> State))) :
  (forall x, x ∈ ds -> x ∈ AVAILABLE_DIRECTIVES) ->
  forall st', sameInputs id st0 st' ->
  exists st1 tr,
    forEach (applyDirective_ (evaluateString Function_ (S fuel)) (VElem id)) ds st'
      = Ret tt st1 tr /\
    sameInputs id st0 st1 /\
    elem st1 id
      = foldl (fun e1 (entry : string * (nat -> Value -> State -> State)) =>
                 match pureResult Function_ (S fuel) id st0 entry.1 with
                 | Some v => writtenOn (host st0) id entry.1 v e1
                 | None => e1
                 end) (elem st' id) ds /\
    (forall j, is_Some (heap st' !! j) ->
       is_Some (heap st1 !! j) /\ (j ≠ id -> elem st1 j = elem st' j)).
Proof.
  induction ds as [|[d h] ds IH]; intros Hin st' Hs.
  - exists st', []. done.
  - assert ((d, h) ∈ AVAILABLE_DIRECTIVES) as Hdh by (apply Hin; by left).
    assert (d ∈ map fst AVAILABLE_DIRECTIVES) as Hd
      by (apply (list_elem_of_fmap_2 fst) in Hdh; exact Hdh).
    assert (forall x, x ∈ ds -> x ∈ AVAILABLE_DIRECTIVES) as Hin'
      by (intros x Hx; apply Hin; by right).
    pose proof Hs as (_ & Hh & _ & _ & _ & Hattr & _).
    destruct (directive_names_kept d Hd) as [Hd1 Hd2].
    cbn [forEach foldl fst]. unfold bind, applyDirective_ at 1.
    rewrite (Hattr d Hd1 Hd2).
    destruct (attributes (elem st0 id) !! d) as [code|] eqn:Ha.
    + destruct (evaluate_pure d code Hd Ha) as (v & Hr & He).
      unfold bind. rewrite (He st' Hs). cbn [after]. rewrite Hr.
      destruct (IH Hin' (h id v st') (sameInputs_handler d h id v st0 st' Hdh Hs))
        as (st1 & tr & Hrun & Hs1 & He1 & Hrest).
      destruct (handler_writes d h id v st' Hdh) as (Hw & Hne & Hkeep & _).
      rewrite Hrun. eexists _, _. split; [reflexivity|]. split; [exact Hs1|].
      split.
      * rewrite He1, Hw. by rewrite Hh.
      * intros j Hj. destruct (Hrest j (Hkeep j Hj)) as [Hj1 Hj2].
        split; [exact Hj1|]. intros Hjid. rewrite Hj2 by done. by apply Hne.
    + assert (pureResult Function_ (S fuel) id st0 d = None) as Hr
        by (unfold pureResult; by rewrite Ha).
      rewrite Hr. cbn [after].
      destruct (IH Hin' st' Hs) as (st1 & tr & Hrun & Hs1 & He1 & Hrest).
      rewrite Hrun. eexists _, _. split; [reflexivity|]. done.
Qed.

Lemma pass_twice :
  exists st1 st2 tr1 tr2,
    updateElement Function_ (S fuel) (VElem id) st0 = Ret tt st1 tr1 /\
    updateElement Function_ (S fuel) (VElem id) st1 = Ret tt st2 tr2 /\
    elem st2 id = elem st1 id /\
    (forall j, is_Some (heap st1 !! j) -> elem st2 j = elem st1 j) /\
    map (replaceChildren id []) (document st2)
      = map (replaceChildren id []) (document st1) /\
    console st2 = console st1.
Proof.
  destruct (pure_pass AVAILABLE_DIRECTIVES (fun x Hx => Hx) st0
              (sameInputs_refl id st0)) as (st1 & tr1 & H1 & Hs1 & He1 & _).
  destruct (pure_pass AVAILABLE_DIRECTIVES (fun x Hx => Hx) st1 Hs1)
    as (st2 & tr2 & H2 & Hs2 & He2 & Hrest).
  assert (elem st2 id = elem st1 id) as He.
  { rewrite He2, He1.
    apply (written_twice (host st0) id
             (pureResult Function_ (S fuel) id st0) (elem st0 id)). }
  exists st1, st2, tr1, tr2. split; [exact H1|]. split; [exact H2|].
  split; [exact He|].
  destruct Hs1 as (Hc1 & _ & Hd1 & _). destruct Hs2 as (Hc2 & _ & Hd2 & _).
  split; [|split; congruence].
  intros j Hj. destruct (decide (j = id)) as [->|Hjid]; [exact He|].
  by apply Hrest.
Qed.

End PurePass.


(** In every state that differs from the example at most in what an
    update of element 4 can change, [$src] is the control and the control
    has its value. *)
Lemma pureDoc_src st' :
  sameInputs 4 Examples.pureDoc st' ->
  context st' VUndefined !! "$src" = Some (VElem 2) /\
  value (elem st' 2) = VStr "hello".
Proof.
  intros (_ & _ & Hd & _ & Hother & _).
  destruct (Hother 2) as (Ha & _ & _ & _ & _ & Hrest).
  { by eexists. }
  { discriminate. }
  { intros Hin. vm_compute in Hin.
    apply list_elem_of_singleton in Hin. discriminate Hin. }
  destruct Hrest as (Hv & _).
  { intros Hin. vm_compute in Hin. by apply elem_of_nil in Hin. }
  split; [|by rewrite Hv].
  unfold context. rewrite lookup_insert_ne by discriminate.
  rewrite lookup_fmap. change "$src" with ("$" +:+ "src").
  rewrite collectRefs_lookup.
  change (map (replaceChildren 4 []) (document Examples.pureDoc))
    with [Node 1 [Node 4 []; Node 2 []]] in Hd.
  destruct (document st') as [|[i ch] [|t2 ts]] eqn:Hdoc; try discriminate Hd.
  simpl in Hd. destruct (decide (i = 4)) as [->|Hi]; [discriminate Hd|].
  injection Hd as -> Hch.
  destruct ch as [|[i1 ch1] [|[i2 ch2] [|c3 ch]]]; try discriminate Hch.
  simpl in Hch.
  destruct (decide (i1 = 4)) as [->|Hi1]; [|by injection Hch].
  destruct (decide (i2 = 4)) as [->|Hi2]; [discriminate Hch|].
  injection Hch as -> Hch2. destruct ch2; [|discriminate Hch2].
  rewrite (lastRef_last st' (1 :: 4 :: concat (map preorder ch1)) 2 [] "src");
    [done| |by rewrite Ha|constructor].
  unfold docOrder. rewrite Hdoc. simpl. by rewrite !app_nil_r.
Qed.


Example update_twice_pureDoc :
  (fun o => (fun s => elem s 4) <$> stateOf o)
    (updateElements Examples.compiled 1 [VElem 4; VElem 4] Examples.pureDoc)
  = (fun o => (fun s => elem s 4) <$> stateOf o)
      (updateElements Examples.compiled 1 [VElem 4] Examples.pureDoc).
Proof. vm_compute. reflexivity. Qed.

(** * Further properties of the engine *)

(** ** What the registry holds *)

Lemma lastRef_Some st refName E :
  lastRef st refName = Some E ->
  E ∈ docOrder st /\ attributes (elem st E) !! "w-ref" = Some refName.
Proof.
  unfold lastRef. intros H. apply last_Some_elem_of in H.
  apply list_elem_of_filter in H. tauto.
Qed.

Lemma collectRefs_fold_keys st (l : list nat) (acc : gmap string nat) k E :
  foldl (fun result elm =>
           match attributes (elem st elm) !! "w-ref" with
           | Some r => <["$" +:+ r := elm]> result
           | None => result
           end) acc l !! k = Some E ->
  acc !! k = Some E \/ exists refName, k = "$" +:+ refName.
Proof.
  revert acc. induction l as [|x l IH]; intros acc; simpl; [by left|].
  intros H. apply IH in H as [H|H]; [|by right].
  destruct (attributes (elem st x) !! "w-ref") as [r|]; [|by left].
  destruct (decide ("$" +:+ r = k)) as [<-|Hne].
  - right. by exists r.
  - left. by rewrite lookup_insert_ne in H.
Qed.

(** The mapping of [refs] holds an element [E] under a key exactly when the
    key is [$] followed by a reference name and [E] is the last element in
    document order carrying that name: every entry is an element of the
    document that carries the attribute, and elements outside the document
    have no entry. *)
Theorem refs_entries (st : State) (k : string) (E : nat) :
  refs st !! k = Some E <->
  exists refName,
    k = "$" +:+ refName /\ lastRef st refName = Some E /\
    E ∈ docOrder st /\ attributes (elem st E) !! "w-ref" = Some refName.
Proof.
  unfold refs. split.
  - intros H. pose proof H as H'. unfold collectRefs in H'.
    apply collectRefs_fold_keys in H' as [H'|(refName & ->)].
    { by rewrite lookup_empty in H'. }
    exists refName. rewrite collectRefs_lookup in H.
    split; [done|]. split; [done|]. by apply lastRef_Some.
  - intros (refName & -> & Hl & _). by rewrite collectRefs_lookup.
Qed.

Example refs_mixed :
  map_to_list (refs Examples.mixed) = [("$form", 1); ("$a", 2)] \/
  map_to_list (refs Examples.mixed) = [("$a", 2); ("$form", 1)].
Proof. vm_compute. tauto. Qed.

(** ** What the scan finds *)

Lemma scan_selectors :
  map (fun key => "w-on:" +:+ key) AVAILABLE_EVENT_NAMES
    ++ map fst AVAILABLE_DIRECTIVES = recognised.
Proof. reflexivity. Qed.

(** ** The show directive *)

Lemma elem_w_show id v st : elem (w_show id v st) id = showOn v (elem st id).
Proof. rewrite w_show_on. apply elem_setElem_eq. Qed.

(** The handler of the show directive never caches [none]: on an element
    whose cached display is not [none], it leaves the inline display
    [none] exactly when the result is falsy, and the cache is again not
    [none]. *)
Theorem w_show_hidden_iff_falsy (st : State) (elm : nat) (v : Value) :
  mOriginalDisplay (elem st elm) ≠ Some "none" ->
  (display (elem (w_show elm v st) elm) = "none" <-> truthy v = false) /\
  mOriginalDisplay (elem (w_show elm v st) elm) ≠ Some "none".
Proof.
  intros Hinv. rewrite elem_w_show. unfold showOn.
  destruct (truthy v); simpl.
  - split; [|done]. split; [|done].
    destruct (mOriginalDisplay (elem st elm)) as [d|]; [|done].
    case_bool_decide; [done|]. intros ->. done.
  - split; [done|]. case_bool_decide as Hd; [done|]. congruence.
Qed.

Lemma w_show_hidden_iff_falsy_witness :
  display (elem (w_show 2 (VNum 0) Examples.mixed) 2) = "none" /\
  display (elem (w_show 2 (VStr "yes") Examples.mixed) 2) = "flex".
Proof.
  split.
  - apply (proj1 (w_show_hidden_iff_falsy Examples.mixed 2 (VNum 0)
                    ltac:(discriminate))). reflexivity.
  - reflexivity.
Defined.

(** Hiding an element any number of times (at least once) and then
    showing it gives back the inline display it had before the first
    hide, the empty one included, as long as that was not [none]: the
    hides after the first leave the cache alone. *)
Theorem w_show_hide_repeatedly_then_show (st : State) (elm : nat) (d : string)
    (hide unhide : Value) (n : nat) :
  display (elem st elm) = d -> d ≠ "none" ->
  truthy hide = false -> truthy unhide = true ->
  display (elem (w_show elm unhide (Nat.iter (S n) (w_show elm hide) st)) elm)
    = d.
Proof.
  intros Hd Hnone Hf Ht.
  assert (display (elem (Nat.iter (S n) (w_show elm hide) st) elm) = "none" /\
          mOriginalDisplay (elem (Nat.iter (S n) (w_show elm hide) st) elm)
            = Some d) as [Hdis Hm].
  { induction n as [|n [IH1 IH2]].
    - cbn [Nat.iter nat_rect]. rewrite elem_w_show. unfold showOn. rewrite Hf.
      cbn [display mOriginalDisplay].
      split; [done|]. rewrite Hd. by rewrite bool_decide_eq_false_2.
    - change (Nat.iter (S (S n)) (w_show elm hide) st)
        with (w_show elm hide (Nat.iter (S n) (w_show elm hide) st)).
      rewrite elem_w_show. unfold showOn. rewrite Hf.
      cbn [display mOriginalDisplay].
      split; [done|]. rewrite IH1. by rewrite bool_decide_eq_true_2. }
  rewrite elem_w_show. unfold showOn. rewrite Ht, Hm.
  cbn [display]. by case_bool_decide.
Qed.

Lemma w_show_hide_repeatedly_then_show_witness :
  let st := Examples.doc [Node 1 []] [(1, Examples.el [] "" None)] in
  display (elem (w_show 1 (VBool true)
                   (Nat.iter 3 (w_show 1 (VBool false)) st)) 1) = "".
Proof.
  intros st.
  apply (w_show_hide_repeatedly_then_show st 1 "" (VBool false) (VBool true) 2
           eq_refl ltac:(discriminate) eq_refl eq_refl).
Defined.

(** ** Edge cases of the update trigger *)

(** [wUpdate] called with something that is not an element (an undefined
    reference, say) throws a TypeError at the first directive of the
    table: nothing is evaluated or logged, the state is untouched, and the
    targets after it are not updated.  No evaluation is started, so this
    holds at any depth. *)
Theorem updateElements_not_an_element
    (Function_ : string -> option Snippet) (fuel : nat) (v : Value)
    (rest : list Value) (st : State) :
  (forall id, v ≠ VElem id) ->
  updateElement Function_ fuel v st = Thrown (VErr "TypeError") st [] /\
  updateElements Function_ fuel (v :: rest) st
    = Thrown (VErr "TypeError") st [].
Proof.
  intros Hv.
  assert (updateElement Function_ fuel v st = Thrown (VErr "TypeError") st [])
    as Hu.
  { unfold updateElement, updateElement_, AVAILABLE_DIRECTIVES.
    cbn [forEach]. unfold bind, applyDirective_ at 1.
    destruct v; try reflexivity. by destruct (Hv id). }
  split; [exact Hu|].
  unfold updateElements, updateElements_. cbn [forEach]. unfold bind.
  unfold updateElement in Hu. by rewrite Hu.
Qed.

Lemma updateElements_not_an_element_witness :
  updateElements Examples.compiled 0 [VUndefined; VElem 2] Examples.mixed
    = Thrown (VErr "TypeError") Examples.mixed [].
Proof.
  apply (proj2 (updateElements_not_an_element Examples.compiled 0 VUndefined
                  [VElem 2] Examples.mixed ltac:(discriminate))).
Defined.

(** Updating an element that carries none of the five directive
    attributes does nothing, whatever else it carries (reference or event
    attributes): no snippet is evaluated and the state is unchanged. *)
Theorem updateElement_without_directives
    (Function_ : string -> option Snippet) (fuel : nat) (id : nat) (st : State) :
  (forall directiveName,
     directiveName ∈ ["w-show"; "w-value"; "w-update"; "w-text"; "w-html"] ->
     attributes (elem st id) !! directiveName = None) ->
  updateElement Function_ fuel (VElem id) st = Ret tt st [].
Proof. intros H. by apply updateElement_undirected. Qed.

Lemma updateElement_without_directives_witness :
  updateElement Examples.compiled 0 (VElem 3) Examples.mixed
    = Ret tt Examples.mixed [].
Proof.
  apply updateElement_without_directives. intros d Hd.
  repeat (apply elem_of_cons in Hd as [->|Hd]; [reflexivity|]).
  by apply elem_of_nil in Hd.
Defined.

(** One call of [wUpdate] with the targets of two calls one after the
    other does what the two calls do in sequence, the second call not
    being made when the first throws. *)
Theorem updateElements_app (Function_ : string -> option Snippet)
    (fuel : nat) (targets1 targets2 : list Value) (st : State) :
  updateElements Function_ fuel (targets1 ++ targets2) st
  = (updateElements Function_ fuel targets1 ;;;
     updateElements Function_ fuel targets2) st.
Proof. unfold updateElements, updateElements_. apply forEach_app. Qed.

(** ** The event binder in closed form *)

Lemma addListeners_added target bs st :
  listenersAdded target bs st (addListeners target bs st).
Proof.
  revert st. induction bs as [|b bs IH]; intros st.
  - apply listenersAdded_refl.
  - change (addListeners target (b :: bs) st)
      with (addListeners target bs (addEventListener target b.1 b.2 st)).
    change (b :: bs) with ([b] ++ bs).
    eapply listenersAdded_trans; [|apply IH].
    destruct b. apply listenersAdded_addEventListener.
Qed.

Lemma attributes_addEventListener target type l st id :
  attributes (elem (addEventListener target type l st) id)
    = attributes (elem st id) /\
  form (elem (addEventListener target type l st) id) = form (elem st id) /\
  listeners (elem (addEventListener target type l st) id)
    = listeners (elem st id) ++ (if decide (id = target) then [(type, l)] else []).
Proof.
  rewrite elem_addEventListener.
  destruct (decide (id = target)); simpl; by rewrite ?app_nil_r.
Qed.

Lemma forEach_bindEvent_own elm (names : list string) st0 st :
  Forall (fun n => n ≠ "submit") names ->
  attributes (elem st elm) = attributes (elem st0 elm) ->
  forEach (bindEvent elm) names st
  = Ret tt
      (addListeners elm
         (omap (fun eventName =>
                  (fun code => (eventName, EventListener eventName elm code))
                    <$> attributes (elem st0 elm) !! ("w-on:" +:+ eventName))
               names) st) [].
Proof.
  intros Hn. revert st. induction Hn as [|n names Hn _ IH]; intros st Ha.
  - reflexivity.
  - cbn [forEach omap list_omap]. unfold bind, bindEvent at 1. rewrite Ha.
    destruct (attributes (elem st0 elm) !! ("w-on:" +:+ n)) as [code|]; simpl.
    + rewrite bool_decide_eq_false_2 by done. simpl.
      rewrite IH; [reflexivity|].
      rewrite <- Ha. apply attributes_addEventListener.
    + by rewrite IH.
Qed.

Lemma registerEventHandler_closed elm st :
  registerEventHandler elm st
  = match attributes (elem st elm) !! "w-on:submit" with
    | None => Ret tt (addListeners elm (ownBindings st elm) st) []
    | Some code =>
        match form (elem st elm) with
        | Some f =>
            Ret tt (addEventListener f "submit" (SubmitListener elm code)
                      (addListeners elm (ownBindings st elm) st)) []
        | None =>
            Thrown (VErr "TypeError")
              (addListeners elm (ownBindings st elm) st) []
        end
    end.
Proof.
  rewrite registerEventHandler_split. unfold bind.
  rewrite (forEach_bindEvent_own elm _ st st not_submit_names eq_refl).
  change (omap _ ["blur"; "click"; "change"; "keyup"; "keydown"])
    with (ownBindings st elm).
  destruct (addListeners_added elm (ownBindings st elm) st) as (_ & _ & R).
  destruct (R elm) as (Ha & Hf & _).
  cbn [after]. unfold bindEvent.
  change ("w-on:" +:+ "submit") with "w-on:submit".
  rewrite Ha, Hf.
  destruct (attributes (elem st elm) !! "w-on:submit") as [code|]; [|done].
  rewrite bool_decide_eq_true_2 by done.
  by destruct (form (elem st elm)).
Qed.

(** [registerEventHandler] in closed form: it adds to the element one
    listener for each of its bindings other than submit, after the
    listeners it has and in the order of the event names; then, for a
    submit binding, it adds the guarded listener to the form, or throws
    when there is none, the other listeners staying added. *)
Theorem registerEventHandler_adds_own_bindings_then_submit
    (elm : nat) (st : State) :
  registerEventHandler elm st
  = match attributes (elem st elm) !! "w-on:submit" with
    | None => Ret tt (addListeners elm (ownBindings st elm) st) []
    | Some code =>
        match form (elem st elm) with
        | Some f =>
            Ret tt (addEventListener f "submit" (SubmitListener elm code)
                      (addListeners elm (ownBindings st elm) st)) []
        | None =>
            Thrown (VErr "TypeError")
              (addListeners elm (ownBindings st elm) st) []
        end
    end /\
  listenersAdded elm (ownBindings st elm) st
    (addListeners elm (ownBindings st elm) st).
Proof.
  split; [apply registerEventHandler_closed|apply addListeners_added].
Qed.

Example registerEventHandler_mixed :
  exists st1,
    registerEventHandler 3 Examples.mixed = Ret tt st1 [] /\
    listeners (elem st1 3)
      = [("blur", EventListener "blur" 3 "");
         ("keyup", EventListener "keyup" 3 "return 1+1")] /\
    listeners (elem st1 1) = [("submit", SubmitListener 3 "throw 'boom'")].
Proof. eexists. split; [reflexivity|]. split; reflexivity. Qed.

Lemma ownBindings_attributes st st' elm :
  attributes (elem st' elm) = attributes (elem st elm) ->
  ownBindings st' elm = ownBindings st elm.
Proof. intros H. unfold ownBindings. by rewrite H. Qed.

(** The binder does not look at the listeners an element has: called a
    second time on an element it was called on, it succeeds again and adds
    to every element the listeners the first call added there, once
    more. *)
Theorem registerEventHandler_twice_adds_twice (elm : nat) (st st1 : State) :
  registerEventHandler elm st = Ret tt st1 [] ->
  exists st2,
    registerEventHandler elm st1 = Ret tt st2 [] /\
    forall id, exists added,
      listeners (elem st1 id) = listeners (elem st id) ++ added /\
      listeners (elem st2 id) = listeners (elem st1 id) ++ added.
Proof.
  rewrite registerEventHandler_closed.
  set (own := ownBindings st elm).
  destruct (addListeners_added elm own st) as (_ & _ & R).
  destruct (attributes (elem st elm) !! "w-on:submit") as [code|] eqn:Hs.
  - destruct (form (elem st elm)) as [f|] eqn:Hf; [|discriminate].
    intros [= <-].
    set (st' := addListeners elm own st) in *.
    assert (attributes (elem (addEventListener f "submit"
                                (SubmitListener elm code) st') elm)
            = attributes (elem st elm)) as Ha1.
    { rewrite (proj1 (attributes_addEventListener _ _ _ _ _)).
      apply (R elm). }
    assert (form (elem (addEventListener f "submit"
                          (SubmitListener elm code) st') elm)
            = form (elem st elm)) as Hf1.
    { rewrite (proj1 (proj2 (attributes_addEventListener _ _ _ _ _))).
      apply (R elm). }
    eexists. split.
    { rewrite registerEventHandler_closed. rewrite Ha1, Hs, Hf1, Hf.
      rewrite (ownBindings_attributes st _ elm Ha1). reflexivity. }
    intros id.
    exists ((if decide (id = elm) then own else [])
            ++ (if decide (id = f) then [("submit", SubmitListener elm code)]
                else [])).
    destruct (R id) as (_ & _ & Hl).
    split.
    + rewrite (proj2 (proj2 (attributes_addEventListener _ _ _ _ _))).
      fold own. rewrite Hl. by rewrite app_assoc.
    + rewrite (proj2 (proj2 (attributes_addEventListener _ _ _ _ _))).
      destruct (addListeners_added elm own
                  (addEventListener f "submit" (SubmitListener elm code) st'))
        as (_ & _ & R').
      destruct (R' id) as (_ & _ & Hl'). fold own. rewrite Hl'.
      by rewrite app_assoc.
  - intros [= <-].
    set (st' := addListeners elm own st) in *.
    assert (attributes (elem st' elm) = attributes (elem st elm)) as Ha1
      by apply (R elm).
    eexists. split.
    { rewrite registerEventHandler_closed. rewrite Ha1, Hs.
      rewrite (ownBindings_attributes st _ elm Ha1). reflexivity. }
    intros id. exists (if decide (id = elm) then own else []).
    destruct (R id) as (_ & _ & Hl). split; [exact Hl|].
    destruct (addListeners_added elm own st') as (_ & _ & R').
    destruct (R' id) as (_ & _ & Hl'). fold own. exact Hl'.
Qed.

Lemma registerEventHandler_twice_adds_twice_witness :
  exists st1 st2,
    registerEventHandler 3 Examples.mixed = Ret tt st1 [] /\
    registerEventHandler 3 st1 = Ret tt st2 [] /\
    listeners (elem st2 1)
      = [("submit", SubmitListener 3 "throw 'boom'");
         ("submit", SubmitListener 3 "throw 'boom'")].
Proof.
  eexists.
  destruct (registerEventHandler_twice_adds_twice 3 Examples.mixed _ eq_refl)
    as (st2 & H2 & Hl).
  exists st2. split; [reflexivity|]. split; [exact H2|].
  destruct (Hl 1) as (added & Ha1 & Ha2).
  rewrite Ha2.
  assert (added = [("submit", SubmitListener 3 "throw 'boom'")]) as ->.
  { vm_compute in Ha1. symmetry. exact Ha1. }
  reflexivity.
Defined.

(** ** Writes that leave the registry alone *)

(** The event binder and the handlers of the show and update directives
    leave the registry as it is: they change neither the tree nor an
    attribute the registry is read from.  (A write of text or markup
    replaces the children of the element, and with them the references
    below it: see the example.) *)
Theorem show_update_and_binder_keep_refs (st : State) (elm : nat) (v : Value) :
  refs (w_show elm v st) = refs st /\
  refs (w_update elm v st) = refs st /\
  (forall st',
     stateOf (registerEventHandler elm st) = Some st' ->
     refs st' = refs st).
Proof.
  unfold refs. split; [|split; [reflexivity|]].
  - rewrite w_show_on. apply collectRefs_preserved; [reflexivity|].
    intros j. destruct (decide (elm = j)) as [<-|Hne].
    + rewrite elem_setElem_eq. unfold showOn. by destruct (truthy v).
    + by rewrite elem_setElem_ne.
  - intros st'. rewrite registerEventHandler_closed.
    destruct (addListeners_added elm (ownBindings st elm) st) as (Hd & _ & R).
    assert (collectRefs (addListeners elm (ownBindings st elm) st)
            = collectRefs st) as Hc.
    { apply collectRefs_preserved; [done|]. intros j. apply (R j). }
    destruct (attributes (elem st elm) !! "w-on:submit") as [code|].
    + destruct (form (elem st elm)) as [f|]; simpl; intros [= <-]; [|done].
      rewrite <- Hc. apply collectRefs_preserved; [done|].
      intros j. apply attributes_addEventListener.
    + simpl. by intros [= <-].
Qed.

Lemma show_update_and_binder_keep_refs_witness :
  refs (w_show 2 (VBool true) Examples.mixed) = refs Examples.mixed /\
  exists st',
    registerEventHandler 3 Examples.mixed = Ret tt st' [] /\
    length (listeners (elem st' 3)) = 2 /\
    refs st' = refs Examples.mixed /\
    refs st' !! "$a" = Some 2.
Proof.
  destruct (show_update_and_binder_keep_refs Examples.mixed 2 (VBool true))
    as (Hshow & _ & _).
  destruct (show_update_and_binder_keep_refs Examples.mixed 3 VUndefined)
    as (_ & _ & Hbind).
  split; [exact Hshow|].
  eexists. split; [reflexivity|]. split; [reflexivity|].
  split; [apply Hbind; reflexivity|].
  rewrite (Hbind _ eq_refl). reflexivity.
Defined.

Example w_text_drops_refs_below :
  refs Examples.pureDoc !! "$old" = Some 5 /\
  refs (w_text 4 (VStr "x") Examples.pureDoc) !! "$old" = None /\
  refs (w_html 4 (VStr "x") Examples.pureDoc) !! "$old" = None.
Proof. repeat split; reflexivity. Qed.

(** ** The mutation observer *)

Lemma forEach_skip_none {A} (g : A -> M unit) (l : list (option A)) st :
  forEach (fun x => match x with Some a => g a | None => ret tt end) l st
  = forEach g (omap (fun x => x) l) st.
Proof.
  revert st. induction l as [|[a|] l IH]; intros st; [done| |].
  - cbn [forEach omap list_omap]. unfold bind.
    destruct (g a st) as [[] st1 tr1| |]; [|done|done]. by rewrite IH.
  - cbn [forEach omap list_omap]. unfold bind, ret.
    by rewrite after_nil, IH.
Qed.

Lemma onMutations_flat Function_ fuel
    (mutationsList : list (list (option nat))) st :
  onMutations Function_ fuel mutationsList st
  = forEach (fun id => register Function_ fuel (ScopeElement id))
            (omap (fun addedNode => addedNode) (concat mutationsList)) st.
Proof.
  unfold onMutations. revert st.
  induction mutationsList as [|l ml IH]; intros st; [done|].
  cbn [forEach concat]. rewrite omap_app, forEach_app. unfold bind.
  rewrite forEach_skip_none.
  destruct (forEach _ (omap _ l) st) as [[] st1 tr1| |]; [|done|done].
  by rewrite IH.
Qed.

(** The observer's callback registers the added nodes that are elements,
    each as a scope of its own, in the order of the records and of the
    nodes in them; nodes that are not elements are passed over, and a
    throw leaves the rest unregistered. *)
Theorem onMutations_registers_added_elements
    (Function_ : string -> option Snippet) (fuel : nat)
    (mutationsList : list (list (option nat))) (st : State) :
  onMutations Function_ fuel mutationsList st
  = forEach (fun id => register Function_ fuel (ScopeElement id))
            (omap (fun addedNode => addedNode) (concat mutationsList)) st.
Proof. apply onMutations_flat. Qed.

Example onMutations_text_nodes_only :
  onMutations Examples.compiled 0 [[None; None]; []; [None]] Examples.mixed
    = Ret tt Examples.mixed [].
Proof. reflexivity. Qed.



(** ** Attributes the engine does not know *)

(** An element that carries none of the eleven event and directive
    attributes, whatever else it carries (a reference name, or the
    [w-class] of the README, which the directive table does not have), is
    left alone: the scan of the document passes it over, the binder adds
    no listener for it, and an update of it evaluates and writes
    nothing. *)
Theorem unrecognised_attributes_are_ignored
    (Function_ : string -> option Snippet) (fuel : nat) (id : nat) (st : State) :
  (forall a, a ∈ recognised -> attributes (elem st id) !! a = None) ->
  (id ∉ scanned st ScopeDocument) /\
  registerEventHandler id st = Ret tt st [] /\
  updateElement Function_ fuel (VElem id) st = Ret tt st [].
Proof.
  intros Hnone. split; [|split].
  - unfold scanned, querySelectorAll. rewrite scan_selectors.
    rewrite list_elem_of_filter. intros [Hex _].
    apply existsb_exists in Hex as (a & Ha & Hs).
    apply list_elem_of_In in Ha. unfold hasAttribute in Hs.
    apply bool_decide_eq_true in Hs. rewrite (Hnone a Ha) in Hs.
    by destruct Hs.
  - apply registerEventHandler_unbound. intros n Hn. apply Hnone.
    unfold AVAILABLE_EVENT_NAMES in Hn. unfold recognised.
    repeat (apply elem_of_cons in Hn as [->|Hn]; [set_solver|]).
    by apply elem_of_nil in Hn.
  - apply updateElement_undirected. intros d Hd. apply Hnone.
    unfold AVAILABLE_DIRECTIVES in Hd. simpl in Hd. unfold recognised.
    repeat (apply elem_of_cons in Hd as [->|Hd]; [set_solver|]).
    by apply elem_of_nil in Hd.
Qed.

Lemma unrecognised_attributes_are_ignored_witness :
  let st := Examples.doc [Node 1 []]
              [(1, Examples.el [("w-ref", "box"); ("w-class", "return 'on'")]
                     "" None)] in
  scanned st ScopeDocument = [] /\
  updateElement Examples.compiled 1 (VElem 1) st = Ret tt st [] /\
  refs st !! "$box" = Some 1.
Proof.
  intros st.
  destruct (unrecognised_attributes_are_ignored Examples.compiled 1 1 st)
    as (_ & _ & Hu).
  - intros a Ha. unfold recognised in Ha.
    repeat (apply elem_of_cons in Ha as [->|Ha]; [reflexivity|]).
    by apply elem_of_nil in Ha.
  - split; [reflexivity|]. split; [exact Hu|reflexivity].
Defined.
